(** * Log compactor: a shallow embedding of [compact_logs] and its properties

    The development follows [log_compactor_Version4.py].  The single public
    function, [compact_logs], reads a text file line by line, keeps the lines
    of the shape [<timestamp> <LEVEL> key=value ...], groups the records by
    level and field set, collapses each group into time windows and yields
    one formatted line per window, ordered by window start.

    Conventions of the embedding:
    - text is [string]; a character is a code point of the range
      U+0000..U+00FF, and the character classes below are Python's on that
      range;
    - a Python [dict] of fields is a [gmap string string];
    - a [datetime] is its wall-clock reading in microseconds together with its
      UTC offset, if it has one;
    - an exception that leaves a function is a [Raise] result;
    - the functions of Python's library ([str] methods, [int],
      [datetime]) are modelled as of Python 3.10. *)

From Stdlib Require Import ZArith Ascii String DecimalString List Lia Permutation Sorted.
From stdpp Require Import base option list sorting strings gmap fin_maps.
From Equations Require Import Equations.

Local Open Scope string_scope.
Local Open Scope list_scope.
Local Open Scope Z_scope.

(** ** Exceptions *)

Inductive exn : Set :=
| OSError        (* IOError is the same class in Python 3 *)
| ValueError
| TypeError
| OverflowError.

Inductive result (A : Type) : Type :=
| Ok (a : A)
| Raise (e : exn).
Arguments Ok {A} a.
Arguments Raise {A} e.

#[global] Instance result_ret : MRet result := fun A a => Ok a.
#[global] Instance result_bind : MBind result := fun A B f m =>
  match m with
  | Ok a => f a
  | Raise e => Raise e
  end.
#[global] Instance result_fmap : FMap result := fun A B f m =>
  match m with
  | Ok a => Ok (f a)
  | Raise e => Raise e
  end.

(** ** Text: the [str] methods the program calls *)

Module Text.

Definition code (c : ascii) : Z := Z.of_N (N_of_ascii c).

Definition between (lo hi : Z) (c : ascii) : bool :=
  (lo <=? code c) && (code c <=? hi).

(** [str.isspace] on one character: TAB..CR, FS..US, SPACE, NEL, NBSP. *)
Definition is_space (c : ascii) : bool :=
  between 9 13 c || between 28 32 c || (code c =? 133) || (code c =? 160).

(** Characters with the Uppercase property: A..Z, À..Ö, Ø..Þ. *)
Definition is_upper (c : ascii) : bool :=
  between 65 90 c || between 192 214 c || between 216 222 c.

(** Characters with the Lowercase property: a..z, ª, µ, º, ß..ö, ø..ÿ. *)
Definition is_lower (c : ascii) : bool :=
  between 97 122 c || (code c =? 170) || (code c =? 181) || (code c =? 186)
  || between 223 246 c || between 248 255 c.

Definition is_digit (c : ascii) : bool := between 48 57 c.

Definition digit_value (c : ascii) : Z := code c - 48.

Fixpoint forallb_str (p : ascii -> bool) (s : string) : bool :=
  match s with
  | EmptyString => true
  | String c s' => p c && forallb_str p s'
  end.

Fixpoint existsb_str (p : ascii -> bool) (s : string) : bool :=
  match s with
  | EmptyString => false
  | String c s' => p c || existsb_str p s'
  end.

(** [not s]: the empty string is false. *)
Definition is_empty (s : string) : bool :=
  match s with
  | EmptyString => true
  | String _ _ => false
  end.

(** [s.lstrip()], [s.rstrip()], [s.strip()]. *)
Fixpoint lstrip (s : string) : string :=
  match s with
  | EmptyString => EmptyString
  | String c s' => if is_space c then lstrip s' else s
  end.

Fixpoint rstrip (s : string) : string :=
  match s with
  | EmptyString => EmptyString
  | String c s' =>
      match rstrip s' with
      | EmptyString => if is_space c then EmptyString else String c EmptyString
      | r => String c r
      end
  end.

Definition strip (s : string) : string := rstrip (lstrip s).

(** [s.split()]: the maximal runs of characters that are not white space.
    [tok] is the run being read. *)
Fixpoint split_from (tok : string) (s : string) : list string :=
  match s with
  | EmptyString => if is_empty tok then [] else [tok]
  | String c s' =>
      if is_space c
      then (if is_empty tok then split_from EmptyString s'
            else tok :: split_from EmptyString s')
      else split_from (tok +:+ String c EmptyString) s'
  end.

Definition split (s : string) : list string := split_from EmptyString s.

(** [s.isupper()]: no lowercase character and at least one uppercase one
    (the range has no titlecase characters). *)
Definition isupper (s : string) : bool :=
  forallb_str (fun c => negb (is_lower c)) s && existsb_str is_upper s.

(** ['=' in s] *)
Definition contains (c : ascii) (s : string) : bool :=
  existsb_str (fun d => Ascii.eqb c d) s.

(** [s.split(c, 1)] for an [s] that contains [c]: the text before the first
    [c] and the text after it.  Without a [c] the whole of [s] comes back
    as the first component. *)
Fixpoint split_once (c : ascii) (s : string) : string * string :=
  match s with
  | EmptyString => (EmptyString, EmptyString)
  | String d s' =>
      if Ascii.eqb c d then (EmptyString, s')
      else let '(k, v) := split_once c s' in (String d k, v)
  end.

(** [sep.join(l)] *)
Fixpoint join (sep : string) (l : list string) : string :=
  match l with
  | [] => EmptyString
  | [x] => x
  | x :: l' => x +:+ sep +:+ join sep l'
  end.

(** Comparison of strings by code points, as [<] on [str]. *)
Definition ltb (a b : string) : bool :=
  match String.compare a b with
  | Lt => true
  | _ => false
  end.

End Text.

Example split_ex :
  Text.split (Text.strip "  2024-01-01T10:00:00   ERROR code=503 ")
  = ["2024-01-01T10:00:00"; "ERROR"; "code=503"].
Proof. reflexivity. Qed.

Example isupper_ex :
  (Text.isupper "ERROR", Text.isupper "ERROR1", Text.isupper "Error",
   Text.isupper "123", Text.isupper "")
  = (true, true, false, false, false).
Proof. reflexivity. Qed.

(** ** Dates and times: the part of Python's [datetime] the program uses *)

Module Datetime.

Definition US_PER_SECOND : Z := 1000000.
Definition US_PER_MINUTE : Z := 60 * US_PER_SECOND.
Definition US_PER_HOUR : Z := 3600 * US_PER_SECOND.
Definition US_PER_DAY : Z := 86400 * US_PER_SECOND.

(** [date.max.toordinal()], the ordinal of 9999-12-31. *)
Definition MAXORDINAL : Z := 3652059.

(** A [datetime] value.  [wall] counts the microseconds from
    0001-01-01T00:00:00 to the wall-clock reading (year, month, day, hour,
    minute, second, microsecond), so that [0 <= wall < MAX_WALL];
    [utcoffset] is [None] for a naive value and the offset of its fixed
    [timezone], in microseconds, for an aware one. *)
Record datetime : Set := mk_datetime {
  wall : Z;
  utcoffset : option Z
}.

Definition MAX_WALL : Z := MAXORDINAL * US_PER_DAY.

#[global] Instance datetime_eq_dec : EqDecision datetime.
Proof. solve_decision. Defined.

(** *** The proleptic Gregorian calendar *)

Definition is_leap (year : Z) : bool :=
  (year mod 4 =? 0) && (negb (year mod 100 =? 0) || (year mod 400 =? 0)).

Definition days_before_year (year : Z) : Z :=
  let y := year - 1 in y * 365 + y / 4 - y / 100 + y / 400.

Definition DAYS_IN_MONTH (month : Z) : Z :=
  if month =? 2 then 28
  else if (month =? 4) || (month =? 6) || (month =? 9) || (month =? 11)
       then 30 else 31.

Definition DAYS_BEFORE_MONTH (month : Z) : Z :=
  match month with
  | 1 => 0 | 2 => 31 | 3 => 59 | 4 => 90 | 5 => 120 | 6 => 151
  | 7 => 181 | 8 => 212 | 9 => 243 | 10 => 273 | 11 => 304 | _ => 334
  end.

Definition days_in_month (year month : Z) : Z :=
  if (month =? 2) && is_leap year then 29 else DAYS_IN_MONTH month.

Definition days_before_month (year month : Z) : Z :=
  DAYS_BEFORE_MONTH month + (if (2 <? month) && is_leap year then 1 else 0).

(** The ordinal of a date, 0001-01-01 being day 1. *)
Definition ymd2ord (year month day : Z) : Z :=
  days_before_year year + days_before_month year month + day.

Definition DI400Y : Z := 146097.
Definition DI100Y : Z := 36524.
Definition DI4Y : Z := 1461.

(** The date of an ordinal. *)
Definition ord2ymd (n : Z) : Z * Z * Z :=
  let n := n - 1 in
  let n400 := n / DI400Y in
  let n := n mod DI400Y in
  let year := n400 * 400 + 1 in
  let n100 := n / DI100Y in
  let n := n mod DI100Y in
  let n4 := n / DI4Y in
  let n := n mod DI4Y in
  let n1 := n / 365 in
  let n := n mod 365 in
  let year := year + n100 * 100 + n4 * 4 + n1 in
  if (n1 =? 4) || (n100 =? 4) then (year - 1, 12, 31)
  else
    let leapyear := (n1 =? 3) && (negb (n4 =? 24) || (n100 =? 3)) in
    let month := Z.shiftr (n + 50) 5 in
    let preceding :=
      DAYS_BEFORE_MONTH month + (if (2 <? month) && leapyear then 1 else 0) in
    if n <? preceding
    then
      let month := month - 1 in
      let preceding :=
        preceding
        - (DAYS_IN_MONTH month + (if (month =? 2) && leapyear then 1 else 0)) in
      (year, month, n - preceding + 1)
    else (year, month, n - preceding + 1).

(** [datetime(year, month, day, hour, minute, second, microsecond)] with
    its [tzinfo], for components in their ranges. *)
Definition make (year month day hour minute second microsecond : Z)
    (tz : option Z) : datetime :=
  {| wall := (ymd2ord year month day - 1) * US_PER_DAY
             + hour * US_PER_HOUR + minute * US_PER_MINUTE
             + second * US_PER_SECOND + microsecond;
     utcoffset := tz |}.

(** *** Comparison and arithmetic *)

(** The point of the time line a value denotes: UTC for an aware value,
    the wall clock itself for a naive one. *)
Definition instant (d : datetime) : Z :=
  match utcoffset d with
  | Some off => wall d - off
  | None => wall d
  end.

Definition aware (d : datetime) : bool :=
  match utcoffset d with Some _ => true | None => false end.

(** [a == b]: a naive and an aware value are never equal. *)
Definition eqb (a b : datetime) : bool :=
  Bool.eqb (aware a) (aware b) && (instant a =? instant b).

(** [a < b] and [a <= b]: comparing a naive with an aware value raises
    [TypeError]. *)
Definition lt (a b : datetime) : result bool :=
  if Bool.eqb (aware a) (aware b) then Ok (instant a <? instant b)
  else Raise TypeError.

Definition le (a b : datetime) : result bool :=
  if Bool.eqb (aware a) (aware b) then Ok (instant a <=? instant b)
  else Raise TypeError.

(** [d + timedelta(seconds=n)]: the wall clock moves, the time zone stays;
    a result before year 1 or after year 9999 raises [OverflowError] (as
    does a [timedelta] too large to build, which such a result implies). *)
Definition add_seconds (d : datetime) (n : Z) : result datetime :=
  let w := wall d + n * US_PER_SECOND in
  if (0 <=? w) && (w <? MAX_WALL)
  then Ok {| wall := w; utcoffset := utcoffset d |}
  else Raise OverflowError.

(** [a.date() == b.date()] *)
Definition same_date (a b : datetime) : bool :=
  wall a / US_PER_DAY =? wall b / US_PER_DAY.

(** *** [datetime.fromisoformat]

    The strings accepted are those of the format the library documents for
    this function,
    [YYYY-MM-DD[*HH[:MM[:SS[.fff[fff]]]][+HH:MM[:SS[.ffffff]]]]],
    where [*] is any one character; every other string raises
    [ValueError].  (Later releases of the library accept further ISO 8601
    forms, which raise [ValueError] here.) *)

Fixpoint take_digits (n : nat) (acc : Z) (s : string) : option (Z * string) :=
  match n with
  | O => Some (acc, s)
  | S n' =>
      match s with
      | String c s' =>
          if Text.is_digit c
          then take_digits n' (acc * 10 + Text.digit_value c) s'
          else None
      | EmptyString => None
      end
  end.

Definition expect (c : ascii) (s : string) : option string :=
  match s with
  | String d s' => if Ascii.eqb c d then Some s' else None
  | EmptyString => None
  end.

(** [YYYY-MM-DD], then the rest of the string. *)
Definition parse_isoformat_date (s : string) : option (Z * Z * Z * string) :=
  '(year, s) ← take_digits 4 0 s;
  s ← expect "-" s;
  '(month, s) ← take_digits 2 0 s;
  s ← expect "-" s;
  '(day, s) ← take_digits 2 0 s;
  Some (year, month, day, s).

(** [HH[:MM[:SS[.fff[fff]]]]], the whole string. *)
Definition parse_hh_mm_ss_ff (s : string) : option (Z * Z * Z * Z) :=
  '(hh, s) ← take_digits 2 0 s;
  if Text.is_empty s then Some (hh, 0, 0, 0) else
  s ← expect ":" s;
  '(mm, s) ← take_digits 2 0 s;
  if Text.is_empty s then Some (hh, mm, 0, 0) else
  s ← expect ":" s;
  '(ss, s) ← take_digits 2 0 s;
  if Text.is_empty s then Some (hh, mm, ss, 0) else
  s ← expect "." s;
  match String.length s with
  | 3%nat => '(ff, s) ← take_digits 3 0 s; Some (hh, mm, ss, ff * 1000)
  | 6%nat => '(ff, s) ← take_digits 6 0 s; Some (hh, mm, ss, ff)
  | _ => None
  end.

(** The text before the first sign character, and the sign ([-1] or [1])
    with the text after it when there is one. *)
Fixpoint split_at_sign (s : string) : string * option (Z * string) :=
  match s with
  | EmptyString => (EmptyString, None)
  | String c s' =>
      if Ascii.eqb c "+" then (EmptyString, Some (1, s'))
      else if Ascii.eqb c "-" then (EmptyString, Some (-1, s'))
      else let '(t, z) := split_at_sign s' in (String c t, z)
  end.

(** The offset of a time zone string [HH:MM], [HH:MM:SS] or
    [HH:MM:SS.ffffff], without its sign: the whole seconds and the
    microseconds. *)
Definition parse_tz (s : string) : option (Z * Z) :=
  match String.length s with
  | 5%nat | 8%nat | 15%nat =>
      '(hh, mm, ss, ff) ← parse_hh_mm_ss_ff s;
      Some (hh * 3600 + mm * 60 + ss, ff)
  | _ => None
  end.

(** The time of day in microseconds and the UTC offset, if any. *)
Definition parse_isoformat_time (s : string) : option (Z * option Z) :=
  let '(tstr, tz) := split_at_sign s in
  '(hh, mm, ss, ff) ← parse_hh_mm_ss_ff tstr;
  if (hh <? 24) && (mm <? 60) && (ss <? 60) then
    let t := hh * US_PER_HOUR + mm * US_PER_MINUTE + ss * US_PER_SECOND + ff in
    match tz with
    | None => Some (t, None)
    | Some (sign, tzstr) =>
        '(secs, ff) ← parse_tz tzstr;
        (* an offset of zero whole seconds is [timezone.utc], whatever its
           microseconds *)
        if secs =? 0 then Some (t, Some 0) else
        let off := secs * US_PER_SECOND + ff in
        (* [timezone(offset)] wants an offset strictly within 24 hours *)
        if off <? 24 * US_PER_HOUR then Some (t, Some (sign * off)) else None
    end
  else None.

Definition parse_isoformat (s : string) : option datetime :=
  '(year, month, day, s) ← parse_isoformat_date s;
  if (1 <=? year) && (1 <=? month) && (month <=? 12)
     && (1 <=? day) && (day <=? days_in_month year month)
  then
    let d := (ymd2ord year month day - 1) * US_PER_DAY in
    match s with
    | EmptyString => Some {| wall := d; utcoffset := None |}
    | String _ tstr =>
        '(t, tz) ← parse_isoformat_time tstr;
        Some {| wall := d + t; utcoffset := tz |}
    end
  else None.

Definition fromisoformat (s : string) : result datetime :=
  match parse_isoformat s with
  | Some d => Ok d
  | None => Raise ValueError
  end.

(** *** [isoformat] *)

Definition digit_char (d : Z) : ascii := ascii_of_N (Z.to_N (48 + d)).

(** [z] written with exactly [width] decimal digits, as [%0<width>d] does
    for a [z] that fits. *)
Fixpoint zpad (width : nat) (z : Z) : string :=
  match width with
  | O => EmptyString
  | S w => zpad w (z / 10) +:+ String (digit_char (z mod 10)) EmptyString
  end.

(** [HH:MM:SS], followed by [.ffffff] when the microseconds are not zero;
    [t] is a time of day in microseconds. *)
Definition format_time (t : Z) : string :=
  zpad 2 (t / US_PER_HOUR) +:+ ":" +:+
  zpad 2 (t mod US_PER_HOUR / US_PER_MINUTE) +:+ ":" +:+
  zpad 2 (t mod US_PER_MINUTE / US_PER_SECOND) +:+
  (if t mod US_PER_SECOND =? 0 then ""
   else "." +:+ zpad 6 (t mod US_PER_SECOND)).

(** The UTC offset as [+HH:MM], with [:SS] and [.ffffff] when needed. *)
Definition format_offset (off : option Z) : string :=
  match off with
  | None => ""
  | Some off =>
      let a := Z.abs off in
      (if off <? 0 then "-" else "+") +:+
      zpad 2 (a / US_PER_HOUR) +:+ ":" +:+
      zpad 2 (a mod US_PER_HOUR / US_PER_MINUTE) +:+
      (if a mod US_PER_MINUTE =? 0 then ""
       else ":" +:+ zpad 2 (a mod US_PER_MINUTE / US_PER_SECOND) +:+
            (if a mod US_PER_SECOND =? 0 then ""
             else "." +:+ zpad 6 (a mod US_PER_SECOND)))
  end.

(** [d.isoformat()] *)
Definition isoformat (d : datetime) : string :=
  let '(year, month, day) := ord2ymd (wall d / US_PER_DAY + 1) in
  zpad 4 year +:+ "-" +:+ zpad 2 month +:+ "-" +:+ zpad 2 day +:+ "T" +:+
  format_time (wall d mod US_PER_DAY) +:+ format_offset (utcoffset d).

(** [d.time().isoformat()]: [time()] drops the time zone. *)
Definition time_isoformat (d : datetime) : string :=
  format_time (wall d mod US_PER_DAY).

End Datetime.

Example ord2ymd_ex :
  (Datetime.ord2ymd (Datetime.ymd2ord 2024 2 29),
   Datetime.ord2ymd (Datetime.ymd2ord 2023 12 31),
   Datetime.ord2ymd 1, Datetime.ord2ymd Datetime.MAXORDINAL)
  = ((2024, 2, 29), (2023, 12, 31), (1, 1, 1), (9999, 12, 31)).
Proof. reflexivity. Qed.

Example fromisoformat_ex :
  (Datetime.isoformat <$> Datetime.fromisoformat "2024-01-01T10:00:00",
   Datetime.isoformat <$> Datetime.fromisoformat "2024-02-29 23:59:59.250",
   Datetime.isoformat <$> Datetime.fromisoformat "2024-01-01",
   Datetime.isoformat <$> Datetime.fromisoformat "2024-01-01T10:00:00+05:30",
   Datetime.isoformat <$> Datetime.fromisoformat "2024-01-01T10:00-00:00",
   Datetime.isoformat <$> Datetime.fromisoformat "2023-02-29T10:00:00",
   Datetime.isoformat <$> Datetime.fromisoformat "10:00:00")
  = (Ok "2024-01-01T10:00:00",
     Ok "2024-02-29T23:59:59.250000", Ok "2024-01-01T00:00:00",
     Ok "2024-01-01T10:00:00+05:30", Ok "2024-01-01T10:00:00+00:00",
     Raise ValueError, Raise ValueError).
Proof. reflexivity. Qed.

(** ** The program *)

(** One entry of [logs]: the tuple [(ts, level, fields, idx)]. *)
Record log : Type := mk_log {
  ts : Datetime.datetime;
  level : string;
  fields : gmap string string;
  idx : nat
}.

(** [parse_timestamp]: the [ValueError] (or [TypeError]) of
    [datetime.fromisoformat] becomes [None]; it raises nothing else. *)
Definition parse_timestamp (s : string) : option Datetime.datetime :=
  match Datetime.fromisoformat s with
  | Ok d => Some d
  | Raise _ => None
  end.

(** [parse_fields]: the loop over [parts], started with [fields = {}]. *)
Fixpoint parse_fields_from (fields : gmap string string) (parts : list string)
  : option (gmap string string) :=
  match parts with
  | [] => Some fields
  | part :: parts' =>
      if negb (Text.contains "=" part) then None
      else
        let '(key, value) := Text.split_once "=" part in
        parse_fields_from (<[key := value]> fields) parts'
  end.

Definition parse_fields (parts : list string) : option (gmap string string) :=
  parse_fields_from ∅ parts.

Definition normalize_user_field (fields : gmap string string)
  : option (gmap string string) :=
  let user := fields !! "user" in
  let user_id := fields !! "user_id" in
  match user_id with
  | Some uid =>
      match user with
      | Some u =>
          if negb (String.eqb u uid) then None
          else Some (<["user" := uid]> (filter (λ kv, kv.1 ≠ "user_id") fields))
      | None =>
          Some (<["user" := uid]> (filter (λ kv, kv.1 ≠ "user_id") fields))
      end
  | None => Some fields
  end.

(** [int(s)] for a string: white space around, a sign, decimal digits with
    single underscores between them, at most [MAX_STR_DIGITS] digits. *)

(** The characters [int] skips around the number: TAB..CR and SPACE, and
    NEL and NBSP, which it reads as spaces. *)
Definition is_int_space (c : ascii) : bool :=
  Text.between 9 13 c || (Text.code c =? 32) || (Text.code c =? 133)
  || (Text.code c =? 160).

Fixpoint int_lstrip (s : string) : string :=
  match s with
  | EmptyString => EmptyString
  | String c s' => if is_int_space c then int_lstrip s' else s
  end.

Fixpoint int_rstrip (s : string) : string :=
  match s with
  | EmptyString => EmptyString
  | String c s' =>
      match int_rstrip s' with
      | EmptyString =>
          if is_int_space c then EmptyString else String c EmptyString
      | r => String c r
      end
  end.

(** [sys.get_int_max_str_digits()], by default. *)
Definition MAX_STR_DIGITS : Z := 4300.

Fixpoint count_digits (s : string) : Z :=
  match s with
  | EmptyString => 0
  | String c s' => (if Text.is_digit c then 1 else 0) + count_digits s'
  end.

(** [seen] tells that the character before was a digit. *)
Fixpoint int_digits (acc : Z) (seen : bool) (s : string) : option Z :=
  match s with
  | EmptyString => if seen then Some acc else None
  | String c s' =>
      if Text.is_digit c then int_digits (acc * 10 + Text.digit_value c) true s'
      else if Ascii.eqb c "_" && seen then int_digits acc false s'
      else None
  end.

(** The number after the sign. *)
Definition int_body (s : string) : option Z :=
  if MAX_STR_DIGITS <? count_digits s then None else int_digits 0 false s.

Definition py_int (s : string) : option Z :=
  match int_rstrip (int_lstrip s) with
  | String "+" s' => int_body s'
  | String "-" s' => Z.opp <$> int_body s'
  | s' => int_body s'
  end.

Definition apply_code_override (level : string) (fields : gmap string string)
  : string :=
  match fields !! "code" with
  | Some c =>
      match py_int c with
      | Some code => if (500 <=? code) && (code <=? 599) then "ERROR" else level
      | None => level
      end
  | None => level
  end.

(** [sorted(l)] and [l.sort()] are stable: the result is what inserting the
    elements from left to right, each behind the elements that are not
    greater, gives.  [ltb] is [<] on the elements. *)
Fixpoint insert_sorted {A} (ltb : A -> A -> bool) (x : A) (l : list A) : list A :=
  match l with
  | [] => [x]
  | y :: l' => if ltb x y then x :: l else y :: insert_sorted ltb x l'
  end.

Definition py_sorted {A} (ltb : A -> A -> bool) (l : list A) : list A :=
  foldl (fun acc x => insert_sorted ltb x acc) [] l.

(** [<] on the tuples [(key, value)]. *)
Definition item_ltb (a b : string * string) : bool :=
  if String.eqb a.1 b.1 then Text.ltb a.2 b.2 else Text.ltb a.1 b.1.

Definition group_key : Type := string * list (string * string).

Definition make_group_key (level : string) (fields : gmap string string)
  : group_key :=
  let sorted_items := py_sorted item_ltb (map_to_list fields) in
  (level, sorted_items).

Definition format_timestamp_range (start end_ : Datetime.datetime) : string :=
  let start_str := Datetime.isoformat start in
  let end_str :=
    if Datetime.same_date start end_ then Datetime.time_isoformat end_
    else Datetime.isoformat end_ in
  if Datetime.eqb start end_ then start_str
  else start_str +:+ "~" +:+ end_str.

(** [str(n)] for a count. *)
Definition str_of_nat (n : nat) : string :=
  DecimalString.NilZero.string_of_uint (Nat.to_uint n).

Definition format_output (start_ts end_ts : Datetime.datetime) (level : string)
    (fields : gmap string string) (count : nat) : string :=
  let ts_range := format_timestamp_range start_ts end_ts in
  let sorted_fields :=
    Text.join " "
      (map (fun kv => kv.1 +:+ "=" +:+ kv.2)
           (py_sorted item_ltb (map_to_list fields))) in
  if (count =? 1)%nat
  then ts_range +:+ " " +:+ level +:+ " " +:+ sorted_fields
  else ts_range +:+ " " +:+ level +:+ " " +:+ sorted_fields
       +:+ " (x" +:+ str_of_nat count +:+ ")".

(** *** Reading: the body of [for line in f] *)

(** What one iteration does with [parts = line.split()]: [None] is
    [continue], [Some] is the tuple appended to [logs], without its index. *)
Definition parse_parts (parts : list string)
  : option (Datetime.datetime * string * gmap string string) :=
  match parts with
  | ts_str :: level :: rest =>
      ts ← parse_timestamp ts_str;
      if Text.is_empty level || negb (Text.isupper level) then None else
      fields ← parse_fields rest;
      fields ← normalize_user_field fields;
      let level := apply_code_override level fields in
      Some (ts, level, fields)
  | _ => None
  end.

Definition parse_line (line : string)
  : option (Datetime.datetime * string * gmap string string) :=
  let line := Text.strip line in
  if Text.is_empty line then None
  else parse_parts (Text.split line).

(** The loop over the lines, with its two variables [logs] and [line_idx]. *)
Fixpoint read_lines (logs : list log) (line_idx : nat) (lines : list string)
  : list log :=
  match lines with
  | [] => logs
  | line :: lines' =>
      match parse_line line with
      | Some (ts, level, fields) =>
          read_lines (logs ++ [mk_log ts level fields line_idx]) (S line_idx)
                     lines'
      | None => read_lines logs line_idx lines'
      end
  end.

(** What the file system does when the program opens and reads [file_path]:
    [open] raises, or the file yields [lines] and then ends or raises. *)
Inductive source : Type :=
| OpenRaises (e : exn)
| Opened (lines : list string) (failure : option exn).

(** The [with open(...)] block. *)
Definition read_logs (src : source) : result (list log) :=
  match src with
  | OpenRaises e => Raise e
  | Opened lines None => Ok (read_lines [] 0 lines)
  | Opened lines (Some e) => Raise e
  end.

(** *** Grouping *)

(** [groups[key].append(r)] on a dictionary that keeps the order in which its
    keys were first inserted. *)
Fixpoint groups_append (key : group_key) (r : log)
    (groups : list (group_key * list log)) : list (group_key * list log) :=
  match groups with
  | [] => [(key, [r])]
  | (k, g) :: groups' =>
      if decide (k = key) then (k, g ++ [r]) :: groups'
      else (k, g) :: groups_append key r groups'
  end.

Definition group_logs (logs : list log) : list (group_key * list log) :=
  foldl (fun groups r =>
           groups_append (make_group_key (level r) (fields r)) r groups)
        [] logs.

(** *** Windows *)

(** The variables of one iteration of the outer [while] loop when it reaches
    [compacted.append]. *)
Record window : Type := mk_window {
  window_group : list log;
  start_ts : Datetime.datetime;
  end_ts : Datetime.datetime;
  w_fields : gmap string string;
  count : nat;
  first_idx : nat;
  output_level : string;
  output : string
}.

(** The inner [while] loop: [rest] is [group_logs[j:]]. *)
Fixpoint absorb (window_end : Datetime.datetime) (window_group rest : list log)
  : result (list log * list log) :=
  match rest with
  | [] => Ok (window_group, [])
  | r :: rest' =>
      match Datetime.le (ts r) window_end with
      | Ok true => absorb window_end (window_group ++ [r]) rest'
      | Ok false => Ok (window_group, rest)
      | Raise e => Raise e
      end
  end.

(** From the end of the inner loop to [compacted.append]; [r] is
    [group_logs[i]], the first member of [window_group]. *)
Definition close_window (error_threshold : Z) (level : string) (r : log)
    (window_group : list log) : window :=
  let first := hd r window_group in
  let start_ts := ts first in
  let end_ts := ts (List.last window_group r) in
  let fields := fields first in
  let count := length window_group in
  let first_idx := idx first in
  let escalated :=
    (error_threshold <=? Z.of_nat (length window_group))
    && String.eqb level "ERROR" in
  let output_level := if escalated then "CRITICAL" else level in
  {| window_group := window_group;
     start_ts := start_ts; end_ts := end_ts; w_fields := fields;
     count := count; first_idx := first_idx; output_level := output_level;
     output := format_output start_ts end_ts output_level fields count |}.

Lemma absorb_length window_end window_group rest wg rest' :
  absorb window_end window_group rest = Ok (wg, rest') ->
  (length rest' <= length rest)%nat.
Proof.
  revert window_group. induction rest as [|r rest IH]; intros g H; simpl in H.
  - inversion H; subst. reflexivity.
  - destruct (Datetime.le (ts r) window_end) as [[|]|e]; simpl in H.
    + apply IH in H. simpl. lia.
    + inversion H; subst. reflexivity.
    + discriminate.
Qed.

Definition inspect {A} (a : A) : {b : A | a = b} := exist _ a eq_refl.

(** The outer [while] loop over one group: [group_logs] is what is left from
    index [i] on. *)
Equations? window_loop (dedup_window_seconds error_threshold : Z)
    (level : string) (group_logs : list log) : result (list window)
    by wf (length group_logs) Nat.lt :=
  window_loop W thr level [] := Ok [];
  window_loop W thr level (r :: rest)
    with Datetime.add_seconds (ts r) W := {
    | Raise e := Raise e
    | Ok window_end with inspect (absorb window_end [r] rest) := {
      | exist _ (Raise e) _ := Raise e
      | exist _ (Ok (window_group, rest')) H
        with window_loop W thr level rest' := {
        | Raise e := Raise e
        | Ok ws := Ok (close_window thr level r window_group :: ws) } } }.
Proof. apply absorb_length in H. simpl. lia. Qed.

(** The loop [for group_key, group_logs in groups.items()]: the windows of
    all groups, in the order in which [compacted] receives them. *)
Fixpoint compact_groups (dedup_window_seconds error_threshold : Z)
    (groups : list (group_key * list log)) : result (list window) :=
  match groups with
  | [] => Ok []
  | (key, g) :: groups' =>
      match window_loop dedup_window_seconds error_threshold key.1 g with
      | Ok ws =>
          match compact_groups dedup_window_seconds error_threshold groups' with
          | Ok ws' => Ok (ws ++ ws')
          | Raise e => Raise e
          end
      | Raise e => Raise e
      end
  end.

(** *** Ordering and output *)

(** An element of [compacted]: [(start_ts, first_idx, output)]. *)
Definition entry : Type := Datetime.datetime * nat * string.

Definition entry_of (w : window) : entry := (start_ts w, first_idx w, output w).

(** The sort key [(x[0], x[1])] and [<] on such tuples: the first components
    are compared with [==] and, when they differ, with [<]. *)
Definition sort_key (x : entry) : Datetime.datetime * nat := (x.1.1, x.1.2).

Definition key_lt (a b : Datetime.datetime * nat) : result bool :=
  if Datetime.eqb a.1 b.1 then Ok (a.2 <? b.2)%nat
  else Datetime.lt a.1 b.1.

(** [l.sort(key=key)] with a comparison that may raise: the stable
    arrangement again, or the exception of a comparison. *)
Fixpoint insert_by {A K} (key : A -> K) (lt : K -> K -> result bool)
    (x : A) (l : list A) : result (list A) :=
  match l with
  | [] => Ok [x]
  | y :: l' =>
      match lt (key x) (key y) with
      | Ok true => Ok (x :: l)
      | Ok false =>
          match insert_by key lt x l' with
          | Ok r => Ok (y :: r)
          | Raise e => Raise e
          end
      | Raise e => Raise e
      end
  end.

Fixpoint sort_into {A K} (key : A -> K) (lt : K -> K -> result bool)
    (acc l : list A) : result (list A) :=
  match l with
  | [] => Ok acc
  | x :: l' =>
      match insert_by key lt x acc with
      | Ok acc' => sort_into key lt acc' l'
      | Raise e => Raise e
      end
  end.

Definition py_sort {A K} (key : A -> K) (lt : K -> K -> result bool)
    (l : list A) : result (list A) :=
  sort_into key lt [] l.

(** [compact_logs], run to the end of the generator: [Ok outs] when it yields
    [outs] and stops, [Raise e] when an exception leaves it.  All the work
    is done before the first [yield], so an exception leaves nothing
    yielded. *)
Definition compact_logs (src : source)
    (dedup_window_seconds error_threshold : Z) : result (list string) :=
  match read_logs src with
  | Raise OSError => Ok []
  | Raise e => Raise e
  | Ok logs =>
      let groups := group_logs logs in
      match compact_groups dedup_window_seconds error_threshold groups with
      | Raise e => Raise e
      | Ok ws =>
          let compacted := map entry_of ws in
          match py_sort sort_key key_lt compacted with
          | Raise e => Raise e
          | Ok compacted => Ok (map (fun x => x.2) compacted)
          end
      end
  end.

(** The examples of the description. *)

Example example_1 :
  compact_logs (Opened ["2024-01-01T10:00:00 ERROR code=503"] None) 10 2
  = Ok ["2024-01-01T10:00:00 ERROR code=503"].
Proof. vm_compute. reflexivity. Qed.

Example example_2 :
  compact_logs
    (Opened ["2024-01-01T10:00:00 INFO user_id=42";
             "2024-01-01T10:00:05 INFO user=42"] None) 10 2
  = Ok ["2024-01-01T10:00:00~10:00:05 INFO user=42 (x2)"].
Proof. vm_compute. reflexivity. Qed.

Example example_3 :
  compact_logs (Opened ["2024-01-01T10:00:00 INFO user=1 user_id=2"] None) 10 2
  = Ok [].
Proof. vm_compute. reflexivity. Qed.

Example example_4 :
  compact_logs
    (Opened ["not a valid log line"; "2024-01-01T10:00:00 WARN code=404 a=b"]
            None) 10 2
  = Ok ["2024-01-01T10:00:00 WARN a=b code=404"].
Proof. vm_compute. reflexivity. Qed.

(** * Properties *)

(** ** The window loops *)

(** The outer loop, one iteration unfolded. *)
Lemma window_loop_cons W thr level r rest :
  window_loop W thr level (r :: rest) =
  match Datetime.add_seconds (ts r) W with
  | Raise e => Raise e
  | Ok window_end =>
      match absorb window_end [r] rest with
      | Raise e => Raise e
      | Ok (window_group, rest') =>
          match window_loop W thr level rest' with
          | Raise e => Raise e
          | Ok ws => Ok (close_window thr level r window_group :: ws)
          end
      end
  end.
Proof.
  funelim (window_loop W thr level (r :: rest));
    repeat match goal with
      | H : Datetime.add_seconds _ _ = _ |- _ => rewrite H
      | H : absorb _ _ _ = _ |- _ => rewrite H
      | H : window_loop _ _ _ _ = _ |- _ => rewrite H
      end; reflexivity.
Qed.

(** What the comparisons and the addition of [datetime] say about the
    instants. *)
Lemma le_true a b :
  Datetime.le a b = Ok true ->
  Datetime.aware a = Datetime.aware b /\ Datetime.instant a <= Datetime.instant b.
Proof.
  unfold Datetime.le.
  destruct (Bool.eqb _ _) eqn:E; [|done].
  apply Bool.eqb_prop in E. intros [= H]. split; [done | lia].
Qed.

Lemma le_false a b :
  Datetime.le a b = Ok false ->
  Datetime.aware a = Datetime.aware b /\ Datetime.instant b < Datetime.instant a.
Proof.
  unfold Datetime.le.
  destruct (Bool.eqb _ _) eqn:E; [|done].
  apply Bool.eqb_prop in E. intros [= H]. split; [done | lia].
Qed.

Lemma add_seconds_instant d n d' :
  Datetime.add_seconds d n = Ok d' ->
  Datetime.aware d' = Datetime.aware d
  /\ Datetime.instant d' = Datetime.instant d + n * Datetime.US_PER_SECOND.
Proof.
  unfold Datetime.add_seconds.
  destruct (_ && _); [|done]. intros [= <-].
  unfold Datetime.aware, Datetime.instant; simpl.
  destruct (Datetime.utcoffset d); split; (done || lia).
Qed.

(** The inner loop splits [rest] into the members it appends to the window,
    all of them not after [window_end], and what it leaves, which is empty or
    starts after [window_end]. *)
Lemma absorb_spec window_end window_group rest wg rest' :
  absorb window_end window_group rest = Ok (wg, rest') ->
  exists a,
    wg = window_group ++ a /\ rest = a ++ rest'
    /\ Forall (fun m => Datetime.le (ts m) window_end = Ok true) a
    /\ (forall y tl, rest' = y :: tl -> Datetime.le (ts y) window_end = Ok false).
Proof.
  revert window_group.
  induction rest as [|r rest IH]; intros g H; simpl in H.
  - injection H as <- <-. exists []. rewrite app_nil_r. by repeat split.
  - destruct (Datetime.le (ts r) window_end) as [[|]|e] eqn:Hle; [| |done].
    + destruct (IH _ H) as (a & -> & -> & Ha & Hrest').
      exists (r :: a). rewrite <- app_assoc. repeat split; try done.
      by constructor.
    + injection H as <- <-. exists []. rewrite app_nil_r.
      repeat split; [done|]. by intros y tl [= <- <-].
Qed.

Section window_loop_facts.
Variables (W thr : Z) (level : string).

(** Induction along the iterations of the outer loop of a run that ends
    without an exception. *)
Lemma window_loop_ok_ind (P : list log -> list window -> Prop) :
  P [] [] ->
  (forall r a rest' window_end ws,
      Datetime.add_seconds (ts r) W = Ok window_end ->
      Forall (fun m => Datetime.le (ts m) window_end = Ok true) a ->
      (forall y tl, rest' = y :: tl ->
                    Datetime.le (ts y) window_end = Ok false) ->
      window_loop W thr level rest' = Ok ws ->
      P rest' ws ->
      P (r :: a ++ rest') (close_window thr level r (r :: a) :: ws)) ->
  forall g ws, window_loop W thr level g = Ok ws -> P g ws.
Proof.
  intros Hnil Hcons g.
  remember (length g) as n eqn:Hn. revert g Hn.
  induction n as [n IH] using lt_wf_ind. intros [|r rest] Hn ws Hws.
  - simp window_loop in Hws. by injection Hws as <-.
  - rewrite window_loop_cons in Hws.
    destruct (Datetime.add_seconds (ts r) W) as [window_end|] eqn:Hadd;
      [|done].
    destruct (absorb window_end [r] rest) as [[wg rest']|] eqn:Habs; [|done].
    destruct (window_loop W thr level rest') as [ws'|] eqn:Hrec; [|done].
    injection Hws as <-.
    destruct (absorb_spec _ _ _ _ _ Habs) as (a & -> & -> & Ha & Hrest').
    apply (Hcons r a rest' window_end ws'); try done.
    apply (IH (length rest')); [|done|done].
    subst n. simpl. rewrite length_app. lia.
Qed.

(** The members of the windows of a group, in the order of the windows,
    are the members of the group in their order. *)
Lemma window_loop_concat g ws :
  window_loop W thr level g = Ok ws ->
  mjoin (window_group <$> ws) = g.
Proof.
  revert g ws. apply window_loop_ok_ind; [done|].
  intros r a rest' window_end ws _ _ _ _ IH.
  rewrite fmap_cons. simpl. by rewrite IH.
Qed.

(** No window is empty, and [count] is the number of its members. *)
Lemma window_loop_count g ws :
  window_loop W thr level g = Ok ws ->
  Forall (fun w => count w = length (window_group w) /\ (0 < count w)%nat) ws.
Proof.
  revert g ws. apply window_loop_ok_ind; [done|].
  intros r a rest' window_end ws _ _ _ _ IH.
  constructor; [|done]. simpl. split; [done | lia].
Qed.

End window_loop_facts.

(** ** Sorting *)

Section py_sort_facts.
Context {A K : Type} (key : A -> K) (lt : K -> K -> result bool).

Lemma insert_by_Permutation x l r :
  insert_by key lt x l = Ok r -> r ≡ₚ x :: l.
Proof.
  revert r. induction l as [|y l IH]; intros r H; simpl in H.
  - by injection H as <-.
  - destruct (lt (key x) (key y)) as [[|]|]; [| |done].
    + by injection H as <-.
    + destruct (insert_by key lt x l) as [r'|]; [|done].
      injection H as <-. rewrite (IH r' eq_refl). apply perm_swap.
Qed.

Lemma sort_into_Permutation acc l r :
  sort_into key lt acc l = Ok r -> r ≡ₚ acc ++ l.
Proof.
  revert acc r. induction l as [|x l IH]; intros acc r H; simpl in H.
  - injection H as <-. by rewrite app_nil_r.
  - destruct (insert_by key lt x acc) as [acc'|] eqn:Hins; [|done].
    rewrite (IH _ _ H), (insert_by_Permutation _ _ _ Hins).
    by rewrite <- Permutation_middle.
Qed.

Lemma py_sort_Permutation l r : py_sort key lt l = Ok r -> r ≡ₚ l.
Proof. apply sort_into_Permutation. Qed.

(** Sorting the images under [f] is sorting with the key composed with
    [f]. *)
Lemma insert_by_fmap {B} (f : B -> A) (x : B) (l : list B) :
  insert_by key lt (f x) (f <$> l) = (fmap f : list B -> list A) <$> insert_by (key ∘ f) lt x l.
Proof.
  induction l as [|y l IH]; [done|].
  rewrite fmap_cons. cbn [insert_by compose].
  destruct (lt (key (f x)) (key (f y))) as [[|]|]; try done.
  rewrite IH. by destruct (insert_by (key ∘ f) lt x l).
Qed.

Lemma sort_into_fmap {B} (f : B -> A) (acc l : list B) :
  sort_into key lt (f <$> acc) (f <$> l)
  = (fmap f : list B -> list A) <$> sort_into (key ∘ f) lt acc l.
Proof.
  revert acc. induction l as [|x l IH]; intros acc; [done|].
  rewrite fmap_cons. cbn [sort_into].
  rewrite insert_by_fmap.
  destruct (insert_by (key ∘ f) lt x acc) as [acc'|]; [|done]. apply IH.
Qed.

Lemma py_sort_fmap {B} (f : B -> A) (l : list B) :
  py_sort key lt (f <$> l) = (fmap f : list B -> list A) <$> py_sort (key ∘ f) lt l.
Proof. apply (sort_into_fmap f []). Qed.

(** When [lt] decides a transitive order [R], a sort that ends leaves the
    list in that order. *)
Context (R : relation K) `{!Transitive R}.
Hypothesis lt_true : forall a b, lt a b = Ok true -> R a b.
Hypothesis lt_false : forall a b, lt a b = Ok false -> R b a.

Let RA : relation A := fun x y => R (key x) (key y).

Lemma insert_by_sorted x l r :
  StronglySorted RA l -> insert_by key lt x l = Ok r -> StronglySorted RA r.
Proof.
  revert r. induction l as [|y l IH]; intros r Hl H; simpl in H.
  - injection H as <-. repeat constructor.
  - destruct (lt (key x) (key y)) as [[|]|] eqn:Hlt; [| |done].
    + injection H as <-. constructor; [done|].
      apply lt_true in Hlt. apply StronglySorted_cons in Hl as [Hy _].
      constructor; [done|].
      eapply Forall_impl; [exact Hy|]. intros z Hz. unfold RA in *.
      by transitivity (key y).
    + destruct (insert_by key lt x l) as [r'|] eqn:Hins; [|done].
      injection H as <-. apply StronglySorted_cons in Hl as [Hy Hl].
      constructor; [by apply IH|].
      apply insert_by_Permutation in Hins. rewrite Hins.
      constructor; [|done]. by apply lt_false.
Qed.

Lemma sort_into_sorted acc l r :
  StronglySorted RA acc -> sort_into key lt acc l = Ok r ->
  StronglySorted RA r.
Proof.
  revert acc r. induction l as [|x l IH]; intros acc r Hacc H; simpl in H.
  - by injection H as <-.
  - destruct (insert_by key lt x acc) as [acc'|] eqn:Hins; [|done].
    eapply IH; [|exact H]. by eapply insert_by_sorted.
Qed.

Lemma py_sort_sorted l r :
  py_sort key lt l = Ok r -> StronglySorted RA r.
Proof. apply sort_into_sorted. constructor. Qed.

(** A list that is in order already is left as it is. *)
Lemma insert_by_last x l :
  Forall (fun y => lt (key x) (key y) = Ok false) l ->
  insert_by key lt x l = Ok (l ++ [x]).
Proof.
  induction 1 as [|y l Hy _ IH]; [done|]. simpl. by rewrite Hy, IH.
Qed.

Hypothesis lt_ge : forall a b, R a b -> lt b a = Ok false.

Lemma sort_into_id acc l :
  StronglySorted RA (acc ++ l) -> sort_into key lt acc l = Ok (acc ++ l).
Proof.
  revert acc. induction l as [|x l IH]; intros acc H; simpl.
  - by rewrite app_nil_r.
  - rewrite insert_by_last.
    + rewrite IH; by rewrite <- app_assoc.
    + apply Forall_forall. intros y Hy. apply lt_ge.
      apply (StronglySorted_app_1_elem_of RA acc (x :: l) y x H Hy).
      apply list_elem_of_here.
Qed.

Lemma py_sort_id l : StronglySorted RA l -> py_sort key lt l = Ok l.
Proof. apply (sort_into_id []). Qed.

End py_sort_facts.

(** The order the sort key induces: the same kind of timestamp, then the
    instant, then the index. *)
Definition key_le (a b : Datetime.datetime * nat) : Prop :=
  Datetime.aware a.1 = Datetime.aware b.1
  /\ (Datetime.instant a.1 < Datetime.instant b.1
      \/ (Datetime.instant a.1 = Datetime.instant b.1 /\ (a.2 <= b.2)%nat)).

#[global] Instance key_le_trans : Transitive key_le.
Proof.
  intros a b c [Hab1 Hab2] [Hbc1 Hbc2]. split; [congruence | lia].
Qed.

Lemma key_lt_true a b : key_lt a b = Ok true -> key_le a b.
Proof.
  unfold key_lt, Datetime.eqb, Datetime.lt, key_le.
  destruct (Bool.eqb _ _) eqn:E; simpl; [|done].
  apply Bool.eqb_prop in E.
  destruct (Z.eqb_spec (Datetime.instant a.1) (Datetime.instant b.1));
    intros [= H]; split; try done.
  - right. apply Nat.ltb_lt in H. lia.
  - left. lia.
Qed.

Lemma key_lt_false a b : key_lt a b = Ok false -> key_le b a.
Proof.
  unfold key_lt, Datetime.eqb, Datetime.lt, key_le.
  destruct (Bool.eqb _ _) eqn:E; simpl; [|done].
  apply Bool.eqb_prop in E.
  destruct (Z.eqb_spec (Datetime.instant a.1) (Datetime.instant b.1));
    intros [= H]; split; try done.
  - right. apply Nat.ltb_ge in H. lia.
  - left. lia.
Qed.

Lemma key_lt_ge a b : key_le a b -> key_lt b a = Ok false.
Proof.
  unfold key_lt, Datetime.eqb, Datetime.lt, key_le. intros [Haw H].
  rewrite <- Haw, Bool.eqb_reflx. simpl.
  destruct (Z.eqb_spec (Datetime.instant b.1) (Datetime.instant a.1)).
  - f_equal. apply Nat.ltb_ge. lia.
  - f_equal. lia.
Qed.

(** ** Groups *)

Definition key_of (r : log) : group_key := make_group_key (level r) (fields r).

(** [groups[key]], or the empty list for a key that is not there. *)
Fixpoint lookup_group (key : group_key) (groups : list (group_key * list log))
  : list log :=
  match groups with
  | [] => []
  | (k, g) :: groups' =>
      if decide (k = key) then g else lookup_group key groups'
  end.

Lemma lookup_groups_append k key r gs :
  lookup_group k (groups_append key r gs)
  = if decide (key = k) then lookup_group k gs ++ [r] else lookup_group k gs.
Proof.
  induction gs as [|[k' g] gs IH]; simpl.
  - repeat case_decide; congruence.
  - repeat (case_decide; simpl); congruence.
Qed.

Lemma groups_append_keys key r gs :
  (groups_append key r gs).*1
  = if decide (key ∈ gs.*1) then gs.*1 else gs.*1 ++ [key].
Proof.
  induction gs as [|[k' g] gs IH].
  - rewrite decide_False; [done|]. apply not_elem_of_nil.
  - cbn [groups_append fmap list_fmap fst].
    destruct (decide (k' = key)) as [->|Hk].
    + rewrite decide_True; [done|]. apply list_elem_of_here.
    + cbn [fmap list_fmap fst]. rewrite IH.
      destruct (decide (key ∈ gs.*1)) as [Hin|Hnin].
      * rewrite decide_True; [done|]. by apply list_elem_of_further.
      * rewrite decide_False; [done|]. intros [->|?]%elem_of_cons; done.
Qed.

Lemma groups_append_Permutation key r gs :
  mjoin (groups_append key r gs).*2 ≡ₚ r :: mjoin gs.*2.
Proof.
  induction gs as [|[k' g] gs IH]; simpl; [done|].
  case_decide; simpl.
  - rewrite <- app_assoc. simpl. by rewrite <- Permutation_middle.
  - rewrite IH. by rewrite <- Permutation_middle.
Qed.

Section group_logs_facts.

Let step (groups : list (group_key * list log)) (r : log) :=
  groups_append (make_group_key (level r) (fields r)) r groups.

Lemma foldl_step_lookup k logs gs :
  lookup_group k (foldl step gs logs)
  = lookup_group k gs ++ filter (fun r => key_of r = k) logs.
Proof.
  revert gs. induction logs as [|r logs IH]; intros gs; simpl.
  - by rewrite app_nil_r.
  - rewrite IH. unfold step. rewrite lookup_groups_append.
    rewrite filter_cons. fold (key_of r).
    case_decide; [|done]. by rewrite <- app_assoc.
Qed.

Lemma foldl_step_NoDup logs gs :
  NoDup gs.*1 -> NoDup (foldl step gs logs).*1.
Proof.
  revert gs. induction logs as [|r logs IH]; intros gs H; simpl; [done|].
  apply IH. unfold step. rewrite groups_append_keys.
  case_decide; [done|]. apply NoDup_app. repeat split; [done| |].
  - intros x Hx ->%list_elem_of_singleton. done.
  - apply NoDup_singleton.
Qed.

Lemma foldl_step_Permutation logs gs :
  mjoin (foldl step gs logs).*2 ≡ₚ mjoin gs.*2 ++ logs.
Proof.
  revert gs. induction logs as [|r logs IH]; intros gs; simpl.
  - by rewrite app_nil_r.
  - rewrite IH. unfold step. rewrite groups_append_Permutation.
    by rewrite <- Permutation_middle.
Qed.

Lemma lookup_group_elem_of k g gs :
  NoDup gs.*1 -> (k, g) ∈ gs -> lookup_group k gs = g.
Proof.
  induction gs as [|[k' g'] gs IH]; simpl; intros Hnd Hin.
  - by apply elem_of_nil in Hin.
  - apply NoDup_cons in Hnd as [Hk' Hnd].
    apply elem_of_cons in Hin as [[= <- <-]|Hin].
    + by rewrite decide_True.
    + case_decide; [|by apply IH]. subst k'. destruct Hk'.
      apply list_elem_of_fmap. by exists (k, g).
Qed.

(** A group is the list of the records with its key, in the order of
    [logs]. *)
Lemma group_logs_filter logs k g :
  (k, g) ∈ group_logs logs -> g = filter (fun r => key_of r = k) logs.
Proof.
  intros Hin. unfold group_logs in *. fold step in Hin.
  rewrite <- (lookup_group_elem_of k g _ (foldl_step_NoDup logs [] (NoDup_nil_2)) Hin).
  fold step. by rewrite foldl_step_lookup.
Qed.

(** Every record is in exactly one group. *)
Lemma group_logs_Permutation logs : mjoin (group_logs logs).*2 ≡ₚ logs.
Proof. unfold group_logs. fold step. by rewrite foldl_step_Permutation. Qed.

End group_logs_facts.

(** ** Reading *)

Lemma read_lines_app logs i lines :
  read_lines logs i lines = logs ++ read_lines [] i lines.
Proof.
  revert logs i. induction lines as [|line lines IH]; intros logs i; simpl.
  - by rewrite app_nil_r.
  - destruct (parse_line line) as [[[t l] f]|]; [|apply IH].
    rewrite (IH (logs ++ _)), (IH [_]). by rewrite <- app_assoc.
Qed.

(** One record for each line that passes parsing and normalization. *)
Lemma read_lines_length i lines :
  length (read_lines [] i lines)
  = length (filter (fun line => is_Some (parse_line line)) lines).
Proof.
  revert i. induction lines as [|line lines IH]; intros i; simpl; [done|].
  rewrite filter_cons.
  destruct (parse_line line) as [[[t l] f]|] eqn:E.
  - rewrite decide_True by eauto. rewrite read_lines_app. simpl.
    by rewrite IH.
  - rewrite decide_False by (by intros [? ?]). apply IH.
Qed.

(** The indices count the records: the [n]-th record has index [n]. *)
Lemma read_lines_idx i lines :
  idx <$> read_lines [] i lines = seq i (length (read_lines [] i lines)).
Proof.
  revert i. induction lines as [|line lines IH]; intros i; simpl; [done|].
  destruct (parse_line line) as [[[t l] f]|]; [|apply IH].
  rewrite read_lines_app. simpl. by rewrite IH.
Qed.

(** ** The windows behind the output *)

(** The windows of all groups in the order in which their lines are
    yielded. *)
Definition compacted_windows (src : source)
    (dedup_window_seconds error_threshold : Z) : result (list window) :=
  match read_logs src with
  | Raise OSError => Ok []
  | Raise e => Raise e
  | Ok logs =>
      match compact_groups dedup_window_seconds error_threshold
              (group_logs logs) with
      | Raise e => Raise e
      | Ok ws => py_sort (sort_key ∘ entry_of) key_lt ws
      end
  end.

Lemma compact_logs_windows src W thr :
  compact_logs src W thr
  = (fmap output : list window -> list string) <$> compacted_windows src W thr.
Proof.
  unfold compact_logs, compacted_windows.
  destruct (read_logs src) as [logs|[]]; try done.
  destruct (compact_groups W thr (group_logs logs)) as [ws|]; [|done].
  change (map entry_of ws) with (entry_of <$> ws).
  rewrite py_sort_fmap.
  destruct (py_sort (sort_key ∘ entry_of) key_lt ws) as [ws'|]; [|done].
  simpl. f_equal. rewrite <- list_fmap_compose. done.
Qed.

Lemma compact_logs_ok src W thr outs :
  compact_logs src W thr = Ok outs ->
  exists ws, compacted_windows src W thr = Ok ws /\ outs = output <$> ws.
Proof.
  rewrite compact_logs_windows.
  destruct (compacted_windows src W thr) as [ws|]; [|done].
  intros [= <-]. by exists ws.
Qed.

Definition window_le (w1 w2 : window) : Prop :=
  key_le (start_ts w1, first_idx w1) (start_ts w2, first_idx w2).

Lemma compact_groups_ok W thr gs ws :
  compact_groups W thr gs = Ok ws ->
  mjoin (window_group <$> ws) = mjoin gs.*2
  /\ Forall (fun w => count w = length (window_group w) /\ (0 < count w)%nat) ws.
Proof.
  revert ws. induction gs as [|[key g] gs IH]; intros ws H; simpl in H.
  - by injection H as <-.
  - destruct (window_loop W thr key.1 g) as [ws1|] eqn:H1; [|done].
    destruct (compact_groups W thr gs) as [ws2|]; [|done].
    injection H as <-. destruct (IH ws2 eq_refl) as [IH1 IH2].
    rewrite fmap_app, join_app, IH1. split.
    + simpl. f_equal. by eapply window_loop_concat.
    + apply Forall_app. split; [|done]. by eapply window_loop_count.
Qed.

Lemma sum_count_length (ws : list window) :
  Forall (fun w => count w = length (window_group w) /\ (0 < count w)%nat) ws ->
  sum_list_with count ws = length (mjoin (window_group <$> ws)).
Proof.
  induction 1 as [|w ws [Hw _] _ IH]; [done|].
  rewrite fmap_cons. cbn [sum_list_with mjoin list_join].
  rewrite length_app. by rewrite Hw, IH.
Qed.

(** * The claims *)

(** ** C3: conservation *)

(** C3.  When the file is read to its end and the run yields [outs], the
    lines yielded are the outputs of windows [ws] whose [count]s add up to the
    number of input lines that pass parsing and normalization; no window is
    empty, [count] is the number of members of the window, and the members of
    all windows together are the records read, each one once. *)
Theorem count_conservation lines W thr outs :
  compact_logs (Opened lines None) W thr = Ok outs ->
  exists ws,
    compacted_windows (Opened lines None) W thr = Ok ws
    /\ outs = output <$> ws
    /\ sum_list_with count ws
       = length (filter (fun line => is_Some (parse_line line)) lines)
    /\ Forall (fun w => count w = length (window_group w) /\ (0 < count w)%nat) ws
    /\ mjoin (window_group <$> ws) ≡ₚ read_lines [] 0 lines.
Proof.
  intros H. destruct (compact_logs_ok _ _ _ _ H) as (ws & Hws & ->).
  exists ws. split; [done|]. split; [done|].
  unfold compacted_windows in Hws. simpl in Hws.
  destruct (compact_groups W thr (group_logs (read_lines [] 0 lines)))
    as [ws0|] eqn:Hgroups; [|done].
  apply py_sort_Permutation in Hws.
  destruct (compact_groups_ok _ _ _ _ Hgroups) as [Hjoin Hcount].
  assert (Hcount' : Forall (fun w => count w = length (window_group w)
                                     /\ (0 < count w)%nat) ws).
  { rewrite Forall_forall in Hcount |- *. intros w Hw. apply Hcount.
    by rewrite <- Hws. }
  assert (Hmembers : mjoin (window_group <$> ws) ≡ₚ read_lines [] 0 lines).
  { rewrite Hws, Hjoin. apply group_logs_Permutation. }
  repeat split; try done.
  rewrite (sum_count_length ws Hcount'), Hmembers. apply read_lines_length.
Qed.

Lemma count_conservation_witness :
  let lines := ["2024-01-01T10:00:00 INFO user_id=42";
                "not a valid log line";
                "2024-01-01T10:00:05 INFO user=42";
                "2024-01-01T10:00:02 ERROR user=1 user_id=2";
                "2024-01-01T10:00:03 WARN code=404"] in
  compact_logs (Opened lines None) 10 2
  = Ok ["2024-01-01T10:00:00~10:00:05 INFO user=42 (x2)";
        "2024-01-01T10:00:03 WARN code=404"]
  /\ exists ws,
      compacted_windows (Opened lines None) 10 2 = Ok ws
      /\ ["2024-01-01T10:00:00~10:00:05 INFO user=42 (x2)";
          "2024-01-01T10:00:03 WARN code=404"] = output <$> ws
      /\ sum_list_with count ws
         = length (filter (fun line => is_Some (parse_line line)) lines)
      /\ Forall (fun w => count w = length (window_group w)
                          /\ (0 < count w)%nat) ws
      /\ mjoin (window_group <$> ws) ≡ₚ read_lines [] 0 lines.
Proof.
  intros lines.
  assert (H : compact_logs (Opened lines None) 10 2
              = Ok ["2024-01-01T10:00:00~10:00:05 INFO user=42 (x2)";
                    "2024-01-01T10:00:03 WARN code=404"])
    by (vm_compute; reflexivity).
  split; [exact H|]. exact (count_conservation lines 10 2 _ H).
Defined.

(** ** C9: an unreadable source *)

(** The source raises an I/O error: on [open], or while its lines are read. *)
Definition raises_io_error (src : source) : bool :=
  match src with
  | OpenRaises OSError => true
  | Opened _ (Some OSError) => true
  | _ => false
  end.

(** C9.  When opening or reading the source raises an I/O error,
    [compact_logs] yields nothing and raises nothing. *)
Theorem io_error_yields_nothing src W thr :
  raises_io_error src = true -> compact_logs src W thr = Ok [].
Proof. by destruct src as [[]|lines [[]|]]. Qed.

Lemma io_error_yields_nothing_witness :
  raises_io_error
    (Opened ["2024-01-01T10:00:00 INFO a=1"] (Some OSError)) = true
  /\ compact_logs (Opened ["2024-01-01T10:00:00 INFO a=1"] (Some OSError)) 10 2
     = Ok [].
Proof.
  split; [reflexivity|].
  apply (io_error_yields_nothing
           (Opened ["2024-01-01T10:00:00 INFO a=1"] (Some OSError)) 10 2).
  reflexivity.
Defined.

(** ** C8: normalization is idempotent *)

(** C8.  A mapping that [normalize_user_field] returns is returned unchanged
    when it is normalized again. *)
Theorem normalize_idempotent (M N : gmap string string) :
  normalize_user_field M = Some N -> normalize_user_field N = Some N.
Proof.
  unfold normalize_user_field at 1.
  destruct (M !! "user_id") as [uid|] eqn:Hid.
  - assert (Hn : (<["user" := uid]> (filter (λ kv, kv.1 ≠ "user_id") M)
                  : gmap string string) !! "user_id" = None).
    { rewrite lookup_insert_ne by done.
      apply map_lookup_filter_None. right. intros v _ Hne. by destruct Hne. }
    destruct (M !! "user") as [u|];
      [destruct (negb (String.eqb u uid)); [done|]|];
      intros [= <-]; unfold normalize_user_field; by rewrite Hn.
  - intros [= <-]. unfold normalize_user_field. by rewrite Hid.
Qed.

Lemma normalize_idempotent_witness :
  let M : gmap string string := <["user_id" := "42"]> (<["a" := "b"]> ∅) in
  let N : gmap string string := <["user" := "42"]> (<["a" := "b"]> ∅) in
  normalize_user_field M = Some N /\ normalize_user_field N = Some N.
Proof.
  intros M N.
  assert (H : normalize_user_field M = Some N) by (vm_compute; reflexivity).
  split; [exact H|]. exact (normalize_idempotent M N H).
Defined.

(** ** C6: escalation *)

(** The inner loop appends exactly the members that are not after
    [window_end], up to the first one that is. *)
Lemma absorb_complete window_end window_group a rest' :
  Forall (fun m => Datetime.le (ts m) window_end = Ok true) a ->
  (forall y tl, rest' = y :: tl -> Datetime.le (ts y) window_end = Ok false) ->
  absorb window_end window_group (a ++ rest') = Ok (window_group ++ a, rest').
Proof.
  intros Ha Hrest'. revert window_group.
  induction Ha as [|m a Hm _ IH]; intros g; simpl.
  - rewrite app_nil_r. destruct rest' as [|y tl]; [done|].
    simpl. by rewrite (Hrest' y tl eq_refl).
  - rewrite Hm, IH. by rewrite <- app_assoc.
Qed.

(** The threshold has no part in the forming of the windows. *)
Lemma window_loop_threshold W thr thr' level g ws :
  window_loop W thr level g = Ok ws ->
  exists ws',
    window_loop W thr' level g = Ok ws'
    /\ window_group <$> ws' = window_group <$> ws.
Proof.
  revert g ws. apply window_loop_ok_ind.
  - exists []. by simp window_loop.
  - intros r a rest' window_end ws Hadd Ha Hrest' _ (ws' & Hws' & Heq).
    exists (close_window thr' level r (r :: a) :: ws').
    rewrite window_loop_cons, Hadd.
    rewrite (absorb_complete window_end [r] a rest' Ha Hrest'), Hws'.
    split; [done|]. rewrite !fmap_cons. by rewrite Heq.
Qed.

(** Every window of a group is closed with the level of the group. *)
Lemma window_loop_closed W thr level g ws :
  window_loop W thr level g = Ok ws ->
  Forall (fun w => exists r, w = close_window thr level r (window_group w)) ws.
Proof.
  revert g ws. apply window_loop_ok_ind; [done|].
  intros r a rest' window_end ws _ _ _ _ IH. constructor; [|done].
  by exists r.
Qed.

(** Every member of a window of a group is a record with the key of the
    group. *)
Lemma window_members_key logs W thr key g ws w m :
  (key, g) ∈ group_logs logs ->
  window_loop W thr key.1 g = Ok ws ->
  w ∈ ws -> m ∈ window_group w ->
  m ∈ logs /\ make_group_key (level m) (fields m) = key.
Proof.
  intros Hg Hws Hw Hm.
  assert (Hin : m ∈ g).
  { rewrite <- (window_loop_concat _ _ _ _ _ Hws).
    apply list_elem_of_join. exists (window_group w). split; [done|].
    by apply list_elem_of_fmap_2. }
  rewrite (group_logs_filter _ _ _ Hg) in Hin.
  by apply list_elem_of_filter in Hin as [Hkey Hlogs].
Qed.

(** C6.  In a group whose level is [ERROR], the line of a window of
    [error_threshold] members shows [CRITICAL] and the line of a window of
    [error_threshold - 1] members shows [ERROR].  The escalation touches
    neither the key nor the members: the members of an escalated window are
    still records of level [ERROR] whose group key is the key of the group,
    and with any other threshold the same group gives windows with the same
    members. *)
Theorem escalation_threshold logs W thr key g ws w :
  (key, g) ∈ group_logs logs ->
  key.1 = "ERROR" ->
  window_loop W thr key.1 g = Ok ws ->
  w ∈ ws ->
  (Z.of_nat (count w) = thr ->
   output_level w = "CRITICAL"
   /\ output w = format_output (start_ts w) (end_ts w) "CRITICAL"
                               (w_fields w) (count w))
  /\ (Z.of_nat (count w) = thr - 1 ->
      output_level w = "ERROR"
      /\ output w = format_output (start_ts w) (end_ts w) "ERROR"
                                  (w_fields w) (count w))
  /\ (forall m, m ∈ window_group w ->
        level m = "ERROR" /\ make_group_key (level m) (fields m) = key)
  /\ (forall thr', exists ws',
         window_loop W thr' key.1 g = Ok ws'
         /\ window_group <$> ws' = window_group <$> ws).
Proof.
  intros Hg Hlevel Hws Hw.
  pose proof (window_loop_closed _ _ _ _ _ Hws) as Hclosed.
  rewrite Forall_forall in Hclosed. destruct (Hclosed w Hw) as [r Hr].
  split; [|split; [|split]].
  - intros Hcount. rewrite Hr in Hcount |- *.
    cbn [output output_level start_ts end_ts w_fields count close_window]
      in Hcount |- *.
    rewrite Hlevel, (proj2 (Z.leb_le _ _)) by lia. done.
  - intros Hcount. rewrite Hr in Hcount |- *.
    cbn [output output_level start_ts end_ts w_fields count close_window]
      in Hcount |- *.
    rewrite Hlevel, (proj2 (Z.leb_gt _ _)) by lia. done.
  - intros m Hm.
    destruct (window_members_key _ _ _ _ _ _ _ _ Hg Hws Hw Hm) as [_ Hkey].
    split; [|done]. by rewrite <- Hlevel, <- Hkey.
  - intros thr'. by eapply window_loop_threshold.
Qed.

Lemma escalation_threshold_witness :
  let r0 := mk_log (Datetime.make 2024 1 1 10 0 0 0 None) "ERROR"
                   {[ "a" := "1" ]} 0 in
  let r1 := mk_log (Datetime.make 2024 1 1 10 0 5 0 None) "ERROR"
                   {[ "a" := "1" ]} 1 in
  let key : group_key := ("ERROR", [("a", "1")]) in
  let w := close_window 2 "ERROR" r0 [r0; r1] in
  ((key, [r0; r1]) ∈ group_logs [r0; r1]
   /\ window_loop 10 2 key.1 [r0; r1] = Ok [w] /\ w ∈ [w]
   /\ Z.of_nat (count w) = 2)
  /\ (output_level w = "CRITICAL"
      /\ output w = format_output (start_ts w) (end_ts w) "CRITICAL"
                                  (w_fields w) (count w))
  /\ output w = "2024-01-01T10:00:00~10:00:05 CRITICAL a=1 (x2)"
  /\ (forall m, m ∈ window_group w ->
        level m = "ERROR" /\ make_group_key (level m) (fields m) = key)
  /\ (forall thr', exists ws',
         window_loop 10 thr' key.1 [r0; r1] = Ok ws'
         /\ window_group <$> ws' = window_group <$> [w]).
Proof.
  intros r0 r1 key w.
  assert (Hg : (key, [r0; r1]) ∈ group_logs [r0; r1]).
  { assert (Heq : group_logs [r0; r1] = [(key, [r0; r1])])
      by (vm_compute; reflexivity).
    rewrite Heq. apply list_elem_of_here. }
  assert (H : window_loop 10 2 key.1 [r0; r1] = Ok [w])
    by (vm_compute; reflexivity).
  assert (Hw : w ∈ [w]) by apply list_elem_of_here.
  assert (Hc : Z.of_nat (count w) = 2) by reflexivity.
  split; [exact (conj Hg (conj H (conj Hw Hc)))|].
  destruct (escalation_threshold [r0; r1] 10 2 key [r0; r1] [w] w
              Hg eq_refl H Hw) as (Hcrit & _ & Hmem & Hthr).
  split; [exact (Hcrit Hc)|]. split; [vm_compute; reflexivity|].
  split; [exact Hmem | exact Hthr].
Defined.

(** The threshold decides between the two levels: with threshold 3 the same
    window of two members stays [ERROR]. *)
Example escalation_ex :
  (compact_logs (Opened ["2024-01-01T10:00:00 ERROR a=1";
                         "2024-01-01T10:00:05 INFO a=1 code=500";
                         "2024-01-01T10:00:05 ERROR a=1"] None) 10 2,
   compact_logs (Opened ["2024-01-01T10:00:00 ERROR a=1";
                         "2024-01-01T10:00:05 INFO a=1 code=500";
                         "2024-01-01T10:00:05 ERROR a=1"] None) 10 3)
  = (Ok ["2024-01-01T10:00:00~10:00:05 CRITICAL a=1 (x2)";
         "2024-01-01T10:00:05 ERROR a=1 code=500"],
     Ok ["2024-01-01T10:00:00~10:00:05 ERROR a=1 (x2)";
         "2024-01-01T10:00:05 ERROR a=1 code=500"]).
Proof. vm_compute. reflexivity. Qed.

(** ** C2: the members of a window *)

Definition instant_le (a b : log) : Prop :=
  Datetime.instant (ts a) <= Datetime.instant (ts b).

#[global] Instance instant_le_trans : Transitive instant_le.
Proof. unfold instant_le. intros a b c. lia. Qed.

(** The members of a group come in the order of their timestamps. *)
Fixpoint chronological (g : list log) : bool :=
  match g with
  | [] => true
  | a :: g' =>
      match g' with
      | [] => true
      | b :: _ =>
          (Datetime.instant (ts a) <=? Datetime.instant (ts b))
          && chronological g'
      end
  end.

Lemma chronological_sorted g :
  chronological g = true -> StronglySorted instant_le g.
Proof.
  intros H. apply Sorted_StronglySorted; [apply _|].
  induction g as [|a [|b g] IH]; [constructor|repeat constructor|].
  simpl in H. apply andb_true_iff in H as [Hab H].
  constructor; [by apply IH|]. constructor. unfold instant_le. lia.
Qed.

(** Every member of the earlier window is before every member of the later
    one. *)
Definition before (w1 w2 : window) : Prop :=
  forall m1 m2, m1 ∈ window_group w1 -> m2 ∈ window_group w2 ->
    Datetime.instant (ts m1) < Datetime.instant (ts m2).

(** The ranges of the member timestamps of two windows have no point in
    common. *)
Definition ranges_disjoint (w1 w2 : window) : Prop :=
  before w1 w2 \/ before w2 w1.

(** The invariant as C2 words it. *)
Definition window_invariant (W : Z) (ws : list window) : Prop :=
  (forall w m, w ∈ ws -> m ∈ window_group w ->
     Z.abs (Datetime.instant (ts m) - Datetime.instant (start_ts w))
     <= W * Datetime.US_PER_SECOND)
  /\ (forall i w1 w2, ws !! i = Some w1 -> ws !! S i = Some w2 ->
        ranges_disjoint w1 w2).

Section window_bounds.
Variables (W thr : Z) (level : string).
Hypothesis W_nonneg : 0 <= W.

Lemma window_loop_upper g ws :
  window_loop W thr level g = Ok ws ->
  Forall (fun w => forall m, m ∈ window_group w ->
            Datetime.instant (ts m)
            <= Datetime.instant (start_ts w) + W * Datetime.US_PER_SECOND) ws.
Proof.
  revert g ws. apply window_loop_ok_ind; [done|].
  intros r a rest' window_end ws Hadd Ha _ _ IH. constructor; [|done].
  apply add_seconds_instant in Hadd as [_ Hend]. simpl.
  intros m [->|Hm]%elem_of_cons.
  - unfold Datetime.US_PER_SECOND. lia.
  - rewrite Forall_forall in Ha. apply Ha, le_true in Hm as [_ Hm]. lia.
Qed.

Lemma window_loop_chronological g ws :
  window_loop W thr level g = Ok ws ->
  StronglySorted instant_le g ->
  Forall (fun w => forall m, m ∈ window_group w ->
            Datetime.instant (start_ts w) <= Datetime.instant (ts m)) ws
  /\ StronglySorted before ws.
Proof.
  revert g ws.
  apply (window_loop_ok_ind W thr level (fun g ws =>
    StronglySorted instant_le g ->
    Forall (fun w => forall m, m ∈ window_group w ->
              Datetime.instant (start_ts w) <= Datetime.instant (ts m)) ws
    /\ StronglySorted before ws)); [by repeat constructor|].
  intros r a rest' window_end ws Hadd Ha Hrest' Hws IH Hsorted.
  apply StronglySorted_cons in Hsorted as [Hr Hsorted].
  apply StronglySorted_app in Hsorted as (_ & _ & Hsorted).
  destruct (IH Hsorted) as [IH1 IH2]. split.
  - constructor; [|done]. simpl. intros m [->|Hm]%elem_of_cons; [lia|].
    rewrite Forall_forall in Hr. apply Hr, elem_of_app. by left.
  - constructor; [done|]. apply Forall_forall. intros w' Hw' m1 m2 Hm1 Hm2.
    assert (Hm2' : m2 ∈ rest').
    { rewrite <- (window_loop_concat _ _ _ _ _ Hws).
      apply list_elem_of_join. exists (window_group w'). split; [done|].
      by apply list_elem_of_fmap_2. }
    destruct rest' as [|y tl]; [by apply elem_of_nil in Hm2'|].
    pose proof (Hrest' y tl eq_refl) as Hy. apply le_false in Hy as [_ Hy].
    assert (Datetime.instant (ts y) <= Datetime.instant (ts m2)).
    { apply elem_of_cons in Hm2' as [->|Hm2']; [lia|].
      apply StronglySorted_cons in Hsorted as [Hy' _].
      rewrite Forall_forall in Hy'. by apply Hy'. }
    assert (Datetime.instant (ts m1) <= Datetime.instant window_end);
      [|lia].
    apply add_seconds_instant in Hadd as [_ Hend]. simpl in Hm1.
    apply elem_of_cons in Hm1 as [->|Hm1].
    + unfold Datetime.US_PER_SECOND in Hend. lia.
    + rewrite Forall_forall in Ha. by apply Ha, le_true in Hm1 as [_ Hm1].
Qed.

End window_bounds.

(** C2, as the program has it.  With a window length that is not negative, no
    member of a window is later than [dedup_window_seconds] after the start
    of its window.  When the members of the group come in the order of their
    timestamps, no member is before the start of its window either, and
    every member of a window is before every member of each later window of
    the group, so that the ranges of consecutive windows do not overlap. *)
Theorem window_bounds_of_group W thr level g ws :
  0 <= W ->
  window_loop W thr level g = Ok ws ->
  (forall w m, w ∈ ws -> m ∈ window_group w ->
     Datetime.instant (ts m)
     <= Datetime.instant (start_ts w) + W * Datetime.US_PER_SECOND)
  /\ (chronological g = true ->
      (forall w m, w ∈ ws -> m ∈ window_group w ->
         Datetime.instant (start_ts w) <= Datetime.instant (ts m))
      /\ StronglySorted before ws
      /\ window_invariant W ws).
Proof.
  intros HW Hws.
  pose proof (window_loop_upper W thr level HW g ws Hws) as Hupper.
  rewrite Forall_forall in Hupper.
  split; [intros w m Hw; by apply Hupper|].
  intros Hg%chronological_sorted.
  destruct (window_loop_chronological W thr level HW g ws Hws Hg)
    as [Hlower Hbefore].
  rewrite Forall_forall in Hlower.
  split; [intros w m Hw; by apply Hlower|]. split; [done|]. split.
  - intros w m Hw Hm. specialize (Hupper w Hw m Hm).
    specialize (Hlower w Hw m Hm). lia.
  - intros i w1 w2 H1 H2. left.
    apply (take_drop_middle ws i w1) in H1 as Heq.
    rewrite <- Heq in Hbefore.
    apply StronglySorted_app in Hbefore as (_ & _ & Hbefore).
    apply StronglySorted_cons in Hbefore as [Hbefore _].
    rewrite Forall_forall in Hbefore. apply Hbefore.
    apply list_elem_of_lookup. exists 0%nat.
    rewrite lookup_drop. by rewrite Nat.add_0_r.
Qed.

Lemma window_bounds_of_group_witness :
  let r0 := mk_log (Datetime.make 2024 1 1 10 0 0 0 None) "INFO"
                   {[ "a" := "1" ]} 0 in
  let r1 := mk_log (Datetime.make 2024 1 1 10 0 5 0 None) "INFO"
                   {[ "a" := "1" ]} 1 in
  let r2 := mk_log (Datetime.make 2024 1 1 10 0 30 0 None) "INFO"
                   {[ "a" := "1" ]} 2 in
  let g := [r0; r1; r2] in
  let ws := [close_window 2 "INFO" r0 [r0; r1]; close_window 2 "INFO" r2 [r2]] in
  (0 <= 10 /\ window_loop 10 2 "INFO" g = Ok ws /\ chronological g = true)
  /\ (forall w m, w ∈ ws -> m ∈ window_group w ->
        Datetime.instant (ts m)
        <= Datetime.instant (start_ts w) + 10 * Datetime.US_PER_SECOND)
  /\ (forall w m, w ∈ ws -> m ∈ window_group w ->
        Datetime.instant (start_ts w) <= Datetime.instant (ts m))
  /\ StronglySorted before ws
  /\ window_invariant 10 ws.
Proof.
  intros r0 r1 r2 g ws.
  assert (HW : 0 <= 10) by lia.
  assert (Hws : window_loop 10 2 "INFO" g = Ok ws) by (vm_compute; reflexivity).
  assert (Hg : chronological g = true) by reflexivity.
  split; [exact (conj HW (conj Hws Hg))|].
  destruct (window_bounds_of_group 10 2 "INFO" g ws HW Hws) as [Hupper Hrest].
  split; [exact Hupper | exact (Hrest Hg)].
Defined.

(** The group of two lines that are not in the order of their timestamps:
    its one window starts at 10:00:20 and has a member of 10:00:00, twenty
    seconds before the start with a window of ten seconds. *)
Lemma window_invariant_counterexample :
  let lines := ["2024-01-01T10:00:20 INFO a=1";
                "2024-01-01T10:00:00 INFO a=1"] in
  let r0 := mk_log (Datetime.make 2024 1 1 10 0 20 0 None) "INFO"
                   {[ "a" := "1" ]} 0 in
  let r1 := mk_log (Datetime.make 2024 1 1 10 0 0 0 None) "INFO"
                   {[ "a" := "1" ]} 1 in
  let w := close_window 2 "INFO" r0 [r0; r1] in
  group_logs (read_lines [] 0 lines) = [(("INFO", [("a", "1")]), [r0; r1])]
  /\ window_loop 10 2 "INFO" [r0; r1] = Ok [w]
  /\ compact_logs (Opened lines None) 10 2
     = Ok ["2024-01-01T10:00:20~10:00:00 INFO a=1 (x2)"]
  /\ ~ window_invariant 10 [w].
Proof.
  intros lines r0 r1 w.
  split; [vm_compute; reflexivity|].
  split; [vm_compute; reflexivity|].
  split; [vm_compute; reflexivity|].
  intros [H _].
  assert (Hw : w ∈ [w]) by apply list_elem_of_here.
  assert (Hm : r1 ∈ window_group w)
    by apply list_elem_of_further, list_elem_of_here.
  specialize (H w r1 Hw Hm). vm_compute in H. by apply H.
Qed.

(** ** C1: the order in which a group is walked *)

(** The windowing that C1 describes: the members of the group are sorted by
    timestamp, then by index, and the walk goes over the sorted list. *)
Definition member_key (r : log) : Datetime.datetime * nat := (ts r, idx r).

Definition sort_members (g : list log) : result (list log) :=
  py_sort member_key key_lt g.

Definition spec_window_loop (dedup_window_seconds error_threshold : Z)
    (level : string) (g : list log) : result (list window) :=
  match sort_members g with
  | Ok sorted => window_loop dedup_window_seconds error_threshold level sorted
  | Raise e => Raise e
  end.

Definition idx_lt (a b : log) : Prop := (idx a < idx b)%nat.

Lemma StronglySorted_filter {A} (R : relation A) (P : A -> Prop)
    `{!forall x, Decision (P x)} (l : list A) :
  StronglySorted R l -> StronglySorted R (filter P l).
Proof.
  induction 1 as [|x l _ IH Hx]; [constructor|].
  rewrite filter_cons. case_decide; [|done].
  constructor; [done|]. rewrite Forall_forall in Hx |- *.
  intros y [_ Hy]%list_elem_of_filter. by apply Hx.
Qed.

Lemma StronglySorted_seq i n : StronglySorted Nat.lt (seq i n).
Proof.
  revert i. induction n as [|n IH]; intros i; simpl; constructor; [done|].
  apply Forall_seq. intros j Hj. unfold Nat.lt. lia.
Qed.

Lemma idx_lt_sorted (l : list log) :
  StronglySorted Nat.lt (idx <$> l) -> StronglySorted idx_lt l.
Proof.
  induction l as [|r l IH]; [constructor|].
  rewrite fmap_cons. intros [Hr H]%StronglySorted_cons.
  constructor; [by apply IH|].
  apply Forall_forall. intros y Hy. rewrite Forall_forall in Hr.
  apply Hr. by apply list_elem_of_fmap_2.
Qed.

(** The records are read in the order of their indices. *)
Lemma read_lines_sorted i lines :
  StronglySorted idx_lt (read_lines [] i lines).
Proof.
  apply idx_lt_sorted. rewrite read_lines_idx. apply StronglySorted_seq.
Qed.

(** A run of the outer loop that ends has compared every member with a
    window end, so the timestamps of the group are all naive or all aware. *)
Lemma window_loop_aware W thr level g ws :
  window_loop W thr level g = Ok ws ->
  forall r0 tl, g = r0 :: tl ->
    Forall (fun m => Datetime.aware (ts m) = Datetime.aware (ts r0)) g.
Proof.
  revert g ws.
  apply (window_loop_ok_ind W thr level (fun g ws =>
    forall r0 tl, g = r0 :: tl ->
      Forall (fun m => Datetime.aware (ts m) = Datetime.aware (ts r0)) g));
    [done|].
  intros r a rest' window_end ws Hadd Ha Hrest' _ IH r0 tl [= <- _].
  apply add_seconds_instant in Hadd as [Hend _].
  constructor; [done|]. apply Forall_app. split.
  - eapply Forall_impl; [exact Ha|]. intros m [Hm _]%le_true. congruence.
  - destruct rest' as [|y tl']; [done|].
    pose proof (Hrest' y tl' eq_refl) as [Hy _]%le_false.
    eapply Forall_impl; [exact (IH y tl' eq_refl)|]. simpl. congruence.
Qed.

Lemma members_sorted g :
  StronglySorted instant_le g -> StronglySorted idx_lt g ->
  (forall a b, a ∈ g -> b ∈ g ->
     Datetime.aware (ts a) = Datetime.aware (ts b)) ->
  StronglySorted (fun x y => key_le (member_key x) (member_key y)) g.
Proof.
  induction 1 as [|x g _ IH Hx]; intros Hidx Haware; [constructor|].
  apply StronglySorted_cons in Hidx as [Hix Hidx].
  constructor.
  - apply IH; [done|]. intros a b Ha Hb.
    apply Haware; by apply list_elem_of_further.
  - apply Forall_forall. intros y Hy.
    rewrite Forall_forall in Hx. rewrite Forall_forall in Hix.
    specialize (Hx y Hy). specialize (Hix y Hy).
    unfold key_le, member_key, instant_le, idx_lt in *. simpl. split.
    + apply Haware; [apply list_elem_of_here | by apply list_elem_of_further].
    + lia.
Qed.

(** C1, as the program has it.  The members of a group are walked in the
    order in which they were read, which is the order of their indices: the
    group is the list of the records with its key in that order, and the
    windows, one after the other, hold the members in that same order;
    nothing sorts them.  When that order is the order of the timestamps
    already, sorting would change nothing, and the windows are those of the
    sorted group. *)
Theorem windows_in_parse_order lines W thr key g ws :
  (key, g) ∈ group_logs (read_lines [] 0 lines) ->
  window_loop W thr key.1 g = Ok ws ->
  g = filter (fun r => key_of r = key) (read_lines [] 0 lines)
  /\ StronglySorted idx_lt g
  /\ mjoin (window_group <$> ws) = g
  /\ (chronological g = true -> spec_window_loop W thr key.1 g = Ok ws).
Proof.
  intros Hg Hws.
  pose proof (group_logs_filter _ _ _ Hg) as Hfilter.
  assert (Hidx : StronglySorted idx_lt g).
  { rewrite Hfilter. apply StronglySorted_filter, read_lines_sorted. }
  split; [done|]. split; [done|].
  split; [by eapply window_loop_concat|].
  intros Hchron%chronological_sorted.
  unfold spec_window_loop, sort_members.
  rewrite (py_sort_id member_key key_lt key_le key_lt_ge); [done|].
  apply members_sorted; try done.
  intros a b Ha Hb. destruct g as [|r0 tl]; [by apply elem_of_nil in Ha|].
  pose proof (window_loop_aware _ _ _ _ _ Hws r0 tl eq_refl) as Haw.
  rewrite Forall_forall in Haw. rewrite (Haw a Ha), (Haw b Hb). done.
Qed.

Lemma windows_in_parse_order_witness :
  let lines := ["2024-01-01T10:00:00 INFO a=1";
                "2024-01-01T10:00:02 WARN b=2";
                "2024-01-01T10:00:05 INFO a=1"] in
  let r0 := mk_log (Datetime.make 2024 1 1 10 0 0 0 None) "INFO"
                   {[ "a" := "1" ]} 0 in
  let r2 := mk_log (Datetime.make 2024 1 1 10 0 5 0 None) "INFO"
                   {[ "a" := "1" ]} 2 in
  let key : group_key := ("INFO", [("a", "1")]) in
  let g := [r0; r2] in
  let ws := [close_window 2 "INFO" r0 [r0; r2]] in
  ((key, g) ∈ group_logs (read_lines [] 0 lines)
   /\ window_loop 10 2 key.1 g = Ok ws
   /\ chronological g = true)
  /\ g = filter (fun r => key_of r = key) (read_lines [] 0 lines)
  /\ StronglySorted idx_lt g
  /\ mjoin (window_group <$> ws) = g
  /\ spec_window_loop 10 2 key.1 g = Ok ws.
Proof.
  intros lines r0 r2 key g ws.
  assert (Hg : (key, g) ∈ group_logs (read_lines [] 0 lines)).
  { assert (Heq : group_logs (read_lines [] 0 lines)
                  = [(key, g);
                     (("WARN", [("b", "2")]),
                      [mk_log (Datetime.make 2024 1 1 10 0 2 0 None) "WARN"
                              {[ "b" := "2" ]} 1])])
      by (vm_compute; reflexivity).
    rewrite Heq. apply list_elem_of_here. }
  assert (Hws : window_loop 10 2 key.1 g = Ok ws) by (vm_compute; reflexivity).
  assert (Hc : chronological g = true) by reflexivity.
  split; [exact (conj Hg (conj Hws Hc))|].
  destruct (windows_in_parse_order lines 10 2 key g ws Hg Hws)
    as (Hfilter & Hidx & Hjoin & Hspec).
  split; [exact Hfilter|]. split; [exact Hidx|].
  split; [exact Hjoin | exact (Hspec Hc)].
Defined.

(** A group whose two members were read against the order of their
    timestamps: the program walks them as read and forms one window from
    10:00:20 to 10:00:00; over the sorted group the walk forms two windows,
    the member of 10:00:00 alone and the member of 10:00:20 alone. *)
Lemma sorted_walk_counterexample :
  let lines := ["2024-01-01T10:00:20 INFO a=1";
                "2024-01-01T10:00:00 INFO a=1"] in
  let r0 := mk_log (Datetime.make 2024 1 1 10 0 20 0 None) "INFO"
                   {[ "a" := "1" ]} 0 in
  let r1 := mk_log (Datetime.make 2024 1 1 10 0 0 0 None) "INFO"
                   {[ "a" := "1" ]} 1 in
  let key : group_key := ("INFO", [("a", "1")]) in
  group_logs (read_lines [] 0 lines) = [(key, [r0; r1])]
  /\ sort_members [r0; r1] = Ok [r1; r0]
  /\ (fmap output : list window -> list string)
       <$> window_loop 10 2 key.1 [r0; r1]
     = Ok ["2024-01-01T10:00:20~10:00:00 INFO a=1 (x2)"]
  /\ (fmap output : list window -> list string)
       <$> spec_window_loop 10 2 key.1 [r0; r1]
     = Ok ["2024-01-01T10:00:00 INFO a=1"; "2024-01-01T10:00:20 INFO a=1"]
  /\ window_loop 10 2 key.1 [r0; r1] <> spec_window_loop 10 2 key.1 [r0; r1].
Proof.
  intros lines r0 r1 key.
  split; [vm_compute; reflexivity|].
  split; [vm_compute; reflexivity|].
  split; [vm_compute; reflexivity|].
  split; [vm_compute; reflexivity|].
  intros H.
  apply (f_equal (fmap (fmap output : list window -> list string))) in H.
  vm_compute in H. discriminate H.
Qed.

(** ** C7: the order of the output *)

(** The sort key of a window is taken from its first member, the one of its
    members that was read first: [start_ts] is the timestamp of that member
    and [first_idx] its index, the least index of the window. *)
Definition keyed_by_first_member (w : window) : Prop :=
  exists r a,
    window_group w = r :: a
    /\ start_ts w = ts r /\ first_idx w = idx r
    /\ Forall (fun m => (idx r < idx m)%nat) a.

Lemma window_loop_first_member W thr level g ws :
  window_loop W thr level g = Ok ws ->
  StronglySorted idx_lt g -> Forall keyed_by_first_member ws.
Proof.
  revert g ws.
  apply (window_loop_ok_ind W thr level (fun g ws =>
    StronglySorted idx_lt g -> Forall keyed_by_first_member ws)); [done|].
  intros r a rest' window_end ws _ _ _ _ IH Hsorted.
  apply StronglySorted_cons in Hsorted as [Hr Hsorted].
  apply StronglySorted_app in Hsorted as (_ & _ & Hsorted).
  apply Forall_app in Hr as [Hr _].
  constructor; [|by apply IH]. by exists r, a.
Qed.

Lemma compact_groups_first_member W thr gs ws :
  Forall (fun kg => StronglySorted idx_lt kg.2) gs ->
  compact_groups W thr gs = Ok ws ->
  Forall keyed_by_first_member ws.
Proof.
  intros Hgs. revert ws.
  induction Hgs as [|[key g] gs Hg _ IH]; intros ws H; simpl in H.
  - by injection H as <-.
  - destruct (window_loop W thr key.1 g) as [ws1|] eqn:H1; [|done].
    destruct (compact_groups W thr gs) as [ws2|]; [|done].
    injection H as <-. apply Forall_app. split; [|by apply IH].
    by eapply window_loop_first_member.
Qed.

Lemma group_logs_sorted logs :
  StronglySorted idx_lt logs ->
  Forall (fun kg => StronglySorted idx_lt kg.2) (group_logs logs).
Proof.
  intros Hlogs. apply Forall_forall. intros [key g] Hg. simpl.
  rewrite (group_logs_filter _ _ _ Hg). by apply StronglySorted_filter.
Qed.

(** C7.  The lines a run yields are the outputs of windows that are in the
    order of the key (start timestamp, first index): along the output the
    start instants never decrease, and where they are equal the first
    indices never decrease.  The key of a window is that of the member that
    was read first, so that windows with the same start come in the order in
    which their first members were read. *)
Theorem output_order src W thr outs :
  compact_logs src W thr = Ok outs ->
  exists ws,
    compacted_windows src W thr = Ok ws
    /\ outs = output <$> ws
    /\ StronglySorted window_le ws
    /\ StronglySorted
         (fun w1 w2 => Datetime.instant (start_ts w1)
                       <= Datetime.instant (start_ts w2)) ws
    /\ Forall keyed_by_first_member ws.
Proof.
  intros H. destruct (compact_logs_ok _ _ _ _ H) as (ws & Hws & ->).
  exists ws. split; [done|]. split; [done|].
  assert (Hsorted : StronglySorted window_le ws
                    /\ Forall keyed_by_first_member ws).
  { unfold compacted_windows in Hws.
    destruct src as [e|lines [e|]]; simpl in Hws.
    - destruct e; try done. injection Hws as <-. by repeat constructor.
    - destruct e; try done. injection Hws as <-. by repeat constructor.
    - destruct (compact_groups W thr (group_logs (read_lines [] 0 lines)))
        as [ws0|] eqn:Hgroups; [|done].
      split.
      + exact (py_sort_sorted (sort_key ∘ entry_of) key_lt key_le
                 key_lt_true key_lt_false ws0 ws Hws).
      + apply py_sort_Permutation in Hws.
        pose proof (compact_groups_first_member W thr _ ws0
                      (group_logs_sorted _ (read_lines_sorted 0 lines))
                      Hgroups) as Hfirst.
        rewrite Forall_forall in Hfirst. apply Forall_forall.
        intros w Hw. apply Hfirst. by rewrite <- Hws. }
  destruct Hsorted as [Hsorted Hfirst].
  split; [done|]. split; [|done].
  clear -Hsorted. induction Hsorted as [|w ws _ IH Hw]; constructor; [done|].
  eapply Forall_impl; [exact Hw|]. intros w' [_ Hle]. simpl in Hle. lia.
Qed.

Lemma output_order_witness :
  let src := Opened ["2024-01-01T10:00:07 ERROR code=500";
                     "2024-01-01T10:00:00 INFO code=503";
                     "2024-01-01T10:00:00 DEBUG a=b";
                     "2024-01-01T10:00:09 ERROR code=500";
                     "2024-01-01T10:00:30 ERROR code=500"] None in
  let outs := ["2024-01-01T10:00:00 ERROR code=503";
               "2024-01-01T10:00:00 DEBUG a=b";
               "2024-01-01T10:00:07~10:00:09 CRITICAL code=500 (x2)";
               "2024-01-01T10:00:30 ERROR code=500"] in
  compact_logs src 10 2 = Ok outs
  /\ exists ws,
      compacted_windows src 10 2 = Ok ws
      /\ outs = output <$> ws
      /\ StronglySorted window_le ws
      /\ StronglySorted
           (fun w1 w2 => Datetime.instant (start_ts w1)
                         <= Datetime.instant (start_ts w2)) ws
      /\ Forall keyed_by_first_member ws.
Proof.
  intros src outs.
  assert (H : compact_logs src 10 2 = Ok outs) by (vm_compute; reflexivity).
  split; [exact H|]. exact (output_order src 10 2 outs H).
Defined.

(** Two windows that start at the same time come in the order in which
    their first lines were read, whatever the order of their groups. *)
Example tie_break_ex :
  compact_logs (Opened ["2024-01-01T10:00:00 INFO a=1";
                        "2024-01-01T10:01:40 WARN b=2";
                        "2024-01-01T10:01:40 INFO a=1"] None) 10 2
  = Ok ["2024-01-01T10:00:00 INFO a=1";
        "2024-01-01T10:01:40 WARN b=2";
        "2024-01-01T10:01:40 INFO a=1"].
Proof. vm_compute. reflexivity. Qed.

(** ** C5: the level token *)



(** The level of a line that is kept passed [level.isupper()]. *)
Lemma parse_parts_isupper ts_str lvl rest x :
  parse_parts (ts_str :: lvl :: rest) = Some x -> Text.isupper lvl = true.
Proof.
  unfold parse_parts. destruct (parse_timestamp ts_str); [|done]. simpl.
  destruct (Text.is_empty lvl); [done|].
  by destruct (Text.isupper lvl).
Qed.





(** A lowercase letter, or no uppercase letter at all, and the line is
    discarded. *)
Example level_discarded_ex :
  map parse_line ["2024-01-01T10:00:00 Error a=1";
                  "2024-01-01T10:00:00 error a=1";
                  "2024-01-01T10:00:00 123 a=1";
                  "2024-01-01T10:00:00 ERRoR a=1"]
  = [None; None; None; None].
Proof. vm_compute. reflexivity. Qed.

(** ** C10: field tokens with an empty key or an empty value *)

Lemma contains_app c a b :
  Text.contains c (a +:+ b) = Text.contains c a || Text.contains c b.
Proof.
  unfold Text.contains. induction a as [|d a IH]; simpl; [done|].
  by rewrite IH, orb_assoc.
Qed.

(** The token [k=v] holds a [=], and splits at the one after [k] when [k]
    has none. *)
Lemma contains_token k v : Text.contains "=" (k +:+ "=" +:+ v) = true.
Proof. rewrite contains_app. simpl. apply orb_true_r. Qed.

Lemma split_once_token k v :
  Text.contains "=" k = false ->
  Text.split_once "=" (k +:+ "=" +:+ v) = (k, v).
Proof.
  unfold Text.contains. induction k as [|d k IH]; simpl; [done|].
  intros [Hd Hk]%orb_false_iff. rewrite Hd, (IH Hk). done.
Qed.

Lemma parse_fields_from_app fields parts parts' :
  parse_fields_from fields (parts ++ parts')
  = parse_fields_from fields parts ≫= fun f => parse_fields_from f parts'.
Proof.
  revert fields. induction parts as [|part parts IH]; intros fields; [done|].
  simpl. destruct (negb (Text.contains "=" part)); [done|].
  destruct (Text.split_once "=" part) as [key value]. apply IH.
Qed.

Lemma parse_fields_token parts k v f :
  parse_fields parts = Some f ->
  Text.contains "=" k = false ->
  parse_fields (parts ++ [k +:+ "=" +:+ v]) = Some (<[k := v]> f).
Proof.
  unfold parse_fields. intros Hf Hk.
  rewrite parse_fields_from_app, Hf. simpl.
  by rewrite contains_token, (split_once_token k v Hk).
Qed.

(** A field that is not [user] or [user_id] goes through the normalization
    as it is. *)
Lemma normalize_insert k v (f : gmap string string) :
  k ≠ "user" -> k ≠ "user_id" ->
  normalize_user_field (<[k := v]> f) = (insert k v) <$> normalize_user_field f.
Proof.
  intros Hu Hid. unfold normalize_user_field.
  rewrite !lookup_insert_ne by done.
  assert (Hfilter :
    <["user" := default "" (f !! "user_id")]>
      (filter (λ kv : string * string, kv.1 ≠ "user_id") (<[k := v]> f))
    = <[k := v]> (<["user" := default "" (f !! "user_id")]>
                    (filter (λ kv : string * string, kv.1 ≠ "user_id") f))).
  { rewrite map_filter_insert_True by done. by apply insert_insert_ne. }
  destruct (f !! "user_id") as [uid|]; [|done]. simpl in Hfilter.
  destruct (f !! "user") as [u|]; [destruct (negb (String.eqb u uid))|];
    simpl; by rewrite ?Hfilter.
Qed.

Lemma apply_code_override_insert lvl k v (f : gmap string string) :
  k ≠ "code" ->
  apply_code_override lvl (<[k := v]> f) = apply_code_override lvl f.
Proof.
  intros Hc. unfold apply_code_override. by rewrite lookup_insert_ne.
Qed.

(** C10, as C10 words it, fails: the token [user_id=], with an empty value,
    is accepted by the parser, but the line, which is kept without the
    token, is discarded with it, by the rule on [user] and [user_id]. *)
Lemma empty_value_discarded_counterexample :
  (exists x, parse_parts ["2024-01-01T10:00:00"; "INFO"; "user=x"] = Some x)
  /\ parse_fields ["user=x"; "user_id="]
     = Some (<["user_id" := ""]> (<["user" := "x"]> ∅))
  /\ parse_parts ["2024-01-01T10:00:00"; "INFO"; "user=x"; "user_id="] = None
  /\ compact_logs (Opened ["2024-01-01T10:00:00 INFO user=x"] None) 10 2
     = Ok ["2024-01-01T10:00:00 INFO user=x"]
  /\ compact_logs (Opened ["2024-01-01T10:00:00 INFO user=x user_id="] None)
                  10 2
     = Ok [].
Proof.
  split; [eexists; vm_compute; reflexivity|].
  repeat split; vm_compute; reflexivity.
Qed.

(** C10, as the program has it.  After field tokens that parse, a token
    [k=v] whose key [k] has no [=] parses too, whether or not [k] or [v] is
    empty, and the parser records [v] under [k]: so do [=v], [k=] and [=].
    On a line whose timestamp and level pass, the mapping with the new field
    goes on to the normalization, which decides about the line.  When [k] is
    neither [user] nor [user_id], as is the empty key, a line that is kept
    without the token is kept with it, with the field added. *)
Theorem empty_key_or_value_accepted parts k v f ts_str lvl t :
  parse_fields parts = Some f ->
  Text.contains "=" k = false ->
  parse_timestamp ts_str = Some t ->
  Text.isupper lvl = true ->
  parse_fields (parts ++ [k +:+ "=" +:+ v]) = Some (<[k := v]> f)
  /\ parse_parts (ts_str :: lvl :: parts ++ [k +:+ "=" +:+ v])
     = (f' ← normalize_user_field (<[k := v]> f);
        Some (t, apply_code_override lvl f', f'))
  /\ (k ≠ "user" -> k ≠ "user_id" ->
      forall l f',
        parse_parts (ts_str :: lvl :: parts) = Some (t, l, f') ->
        parse_parts (ts_str :: lvl :: parts ++ [k +:+ "=" +:+ v])
        = Some (t, apply_code_override lvl (<[k := v]> f'), <[k := v]> f')).
Proof.
  intros Hf Hk Ht Hup.
  pose proof (parse_fields_token parts k v f Hf Hk) as Htok.
  assert (Hne : Text.is_empty lvl = false) by (by destruct lvl).
  assert (Hline : forall rest,
    parse_parts (ts_str :: lvl :: rest)
    = (f0 ← parse_fields rest; f' ← normalize_user_field f0;
       Some (t, apply_code_override lvl f', f'))).
  { intros rest. unfold parse_parts. rewrite Ht. cbn [mbind option_bind].
    by rewrite Hne, Hup. }
  split; [done|]. split.
  - rewrite Hline, Htok. done.
  - intros Hu Hid l f'. rewrite !Hline, Htok, Hf. cbn [mbind option_bind].
    rewrite (normalize_insert k v f Hu Hid).
    destruct (normalize_user_field f) as [n|]; [|done].
    cbn [mbind option_bind fmap option_fmap option_map].
    by intros [= _ <-].
Qed.

Lemma empty_key_or_value_accepted_witness :
  let f : gmap string string := {[ "a" := "1" ]} in
  let t := Datetime.make 2024 1 1 10 0 0 0 None in
  (parse_fields ["a=1"] = Some f /\ Text.contains "=" "" = false
   /\ parse_timestamp "2024-01-01T10:00:00" = Some t
   /\ Text.isupper "INFO" = true)
  /\ parse_fields ["a=1"; "="] = Some (<["" := ""]> f)
  /\ parse_parts ["2024-01-01T10:00:00"; "INFO"; "a=1"; "="]
     = Some (t, "INFO", <["" := ""]> f).
Proof.
  intros f t.
  assert (Hf : parse_fields ["a=1"] = Some f) by (vm_compute; reflexivity).
  assert (Hk : Text.contains "=" "" = false) by reflexivity.
  assert (Ht : parse_timestamp "2024-01-01T10:00:00" = Some t)
    by (vm_compute; reflexivity).
  assert (Hup : Text.isupper "INFO" = true) by reflexivity.
  split; [exact (conj Hf (conj Hk (conj Ht Hup)))|].
  destruct (empty_key_or_value_accepted ["a=1"] "" "" f
              "2024-01-01T10:00:00" "INFO" t Hf Hk Ht Hup)
    as (H1 & _ & H3).
  split; [exact H1|].
  apply (H3 ltac:(done) ltac:(done) "INFO" f).
  vm_compute. reflexivity.
Defined.

(** The three tokens on whole lines. *)
Example empty_key_or_value_ex :
  compact_logs (Opened ["2024-01-01T10:00:00 INFO =v";
                        "2024-01-01T10:00:01 INFO k=";
                        "2024-01-01T10:00:02 INFO =";
                        "2024-01-01T10:00:03 INFO k= =v =";
                        "2024-01-01T10:00:04 INFO k"] None) 0 2
  = Ok ["2024-01-01T10:00:00 INFO =v";
        "2024-01-01T10:00:01 INFO k=";
        "2024-01-01T10:00:02 INFO =";
        "2024-01-01T10:00:03 INFO = k="].
Proof. vm_compute. reflexivity. Qed.

(** ** C4: the timestamp token *)

(** A line is kept only when [datetime.fromisoformat] accepts its first
    token. *)
Lemma parse_parts_timestamp ts_str lvl rest t l f :
  parse_parts (ts_str :: lvl :: rest) = Some (t, l, f) ->
  Datetime.fromisoformat ts_str = Ok t.
Proof.
  unfold parse_parts, parse_timestamp.
  destruct (Datetime.fromisoformat ts_str) as [d|]; [|done]. simpl.
  destruct (Text.is_empty lvl || negb (Text.isupper lvl)); [done|].
  destruct (parse_fields rest) as [f0|]; [|done]. simpl.
  destruct (normalize_user_field f0); [|done]. simpl. by intros [= <- _ _].
Qed.

(** C4.  What the program does with timestamps that C4 wants discarded: a
    timestamp with a UTC offset is kept, as an aware [datetime], and a date
    without a time is kept, as midnight of that date; a file that has
    timestamps with and without offset in one group, or in two windows, makes
    the run raise [TypeError]. *)
Theorem offset_and_bare_date_kept :
  parse_timestamp "2024-01-01T10:00:00+05:00"
  = Some (Datetime.make 2024 1 1 10 0 0 0 (Some (5 * Datetime.US_PER_HOUR)))
  /\ compact_logs (Opened ["2024-01-01T10:00:00+05:00 INFO a=1"] None) 10 2
     = Ok ["2024-01-01T10:00:00+05:00 INFO a=1"]
  /\ parse_timestamp "2024-01-01"
     = Some (Datetime.make 2024 1 1 0 0 0 0 None)
  /\ compact_logs (Opened ["2024-01-01 INFO a=1"] None) 10 2
     = Ok ["2024-01-01T00:00:00 INFO a=1"]
  /\ compact_logs (Opened ["2024-01-01T10:00:00+05:00 INFO a=1";
                           "2024-01-01T10:00:00 INFO a=1"] None) 10 2
     = Raise TypeError
  /\ compact_logs (Opened ["2024-01-01T10:00:00+05:00 INFO a=1";
                           "2024-01-01T10:00:00 WARN a=1"] None) 10 2
     = Raise TypeError.
Proof. repeat split; vm_compute; reflexivity. Qed.

(** * Runs that end without an exception *)

(** A record whose timestamp is naive and leaves room for a window of
    [W] seconds before the last (or after the first) representable
    moment. *)
Definition plain (W : Z) (r : log) : Prop :=
  Datetime.aware (ts r) = false
  /\ 0 <= Datetime.wall (ts r) + W * Datetime.US_PER_SECOND < Datetime.MAX_WALL.

Lemma add_seconds_plain W r :
  plain W r ->
  exists window_end,
    Datetime.add_seconds (ts r) W = Ok window_end
    /\ Datetime.aware window_end = false.
Proof.
  intros [Haw Hrange]. unfold Datetime.add_seconds.
  rewrite (proj2 (Z.leb_le _ _)), (proj2 (Z.ltb_lt _ _)) by lia. simpl.
  eexists. split; [done|]. unfold Datetime.aware in *. simpl.
  by destruct (Datetime.utcoffset (ts r)).
Qed.

Lemma absorb_total W window_end window_group rest :
  Datetime.aware window_end = false -> Forall (plain W) rest ->
  exists wg rest', absorb window_end window_group rest = Ok (wg, rest').
Proof.
  intros Hend Hrest. revert window_group.
  induction Hrest as [|r rest [Hr _] _ IH]; intros g; simpl; [by eauto|].
  unfold Datetime.le. rewrite Hr, Hend. simpl.
  destruct (_ <=? _); [apply IH | by eauto].
Qed.

Lemma window_loop_total W thr level g :
  Forall (plain W) g -> exists ws, window_loop W thr level g = Ok ws.
Proof.
  remember (length g) as n eqn:Hn. revert g Hn.
  induction n as [n IH] using lt_wf_ind. intros [|r rest] Hn Hg.
  - exists []. by simp window_loop.
  - apply Forall_cons in Hg as [Hr Hrest].
    destruct (add_seconds_plain W r Hr) as (window_end & Hadd & Hend).
    destruct (absorb_total W window_end [r] rest Hend Hrest)
      as (wg & rest' & Habs).
    destruct (absorb_spec _ _ _ _ _ Habs) as (a & -> & -> & _ & _).
    apply Forall_app in Hrest as [_ Hrest'].
    destruct (IH (length rest')) with (g := rest') as [ws Hws]; [|done|done|].
    { subst n. simpl. rewrite length_app. lia. }
    exists (close_window thr level r ([r] ++ a) :: ws).
    by rewrite window_loop_cons, Hadd, Habs, Hws.
Qed.

Lemma compact_groups_total W thr gs :
  Forall (plain W) (mjoin gs.*2) ->
  exists ws, compact_groups W thr gs = Ok ws.
Proof.
  induction gs as [|[key g] gs IH]; simpl; [by eauto|].
  intros [Hg Hgs]%Forall_app.
  destruct (window_loop_total W thr key.1 g Hg) as [ws Hws].
  destruct (IH Hgs) as [ws' Hws']. rewrite Hws, Hws'. by eauto.
Qed.

(** The start of a window is the timestamp of a member of the group. *)
Lemma window_loop_start W thr level g ws :
  window_loop W thr level g = Ok ws ->
  Forall (fun w => exists r, r ∈ g /\ start_ts w = ts r) ws.
Proof.
  revert g ws. apply window_loop_ok_ind; [done|].
  intros r a rest' window_end ws _ _ _ _ IH. constructor.
  - exists r. split; [apply list_elem_of_here | done].
  - eapply Forall_impl; [exact IH|]. intros w (r' & Hr' & Hw).
    exists r'. split; [|done].
    apply list_elem_of_further, elem_of_app. by right.
Qed.

Lemma compact_groups_start W thr gs ws :
  compact_groups W thr gs = Ok ws ->
  Forall (fun w => exists r, r ∈ mjoin gs.*2 /\ start_ts w = ts r) ws.
Proof.
  revert ws. induction gs as [|[key g] gs IH]; intros ws H; simpl in H.
  - by injection H as <-.
  - destruct (window_loop W thr key.1 g) as [ws1|] eqn:H1; [|done].
    destruct (compact_groups W thr gs) as [ws2|]; [|done].
    injection H as <-. apply Forall_app. split.
    + eapply Forall_impl; [exact (window_loop_start _ _ _ _ _ H1)|].
      intros w (r & Hr & Hw). exists r. split; [|done].
      simpl. apply elem_of_app. by left.
    + eapply Forall_impl; [exact (IH ws2 eq_refl)|]. intros w (r & Hr & Hw).
      exists r. split; [|done]. simpl. apply elem_of_app. by right.
Qed.

Section py_sort_total.
Context {A : Type} (key : A -> Datetime.datetime * nat).

Let naive (x : A) : Prop := Datetime.aware (key x).1 = false.

Lemma key_lt_total a b :
  Datetime.aware a.1 = false -> Datetime.aware b.1 = false ->
  exists c, key_lt a b = Ok c.
Proof.
  intros Ha Hb. unfold key_lt, Datetime.eqb, Datetime.lt.
  rewrite Ha, Hb. simpl. destruct (_ =? _); by eauto.
Qed.

Lemma insert_by_total x l :
  naive x -> Forall naive l -> exists r, insert_by key key_lt x l = Ok r.
Proof.
  intros Hx. induction 1 as [|y l Hy _ [r IH]]; simpl; [by eauto|].
  destruct (key_lt_total (key x) (key y) Hx Hy) as [[|] ->]; [by eauto|].
  rewrite IH. by eauto.
Qed.

Lemma sort_into_total acc l :
  Forall naive acc -> Forall naive l ->
  exists r, sort_into key key_lt acc l = Ok r.
Proof.
  intros Hacc Hl. revert acc Hacc.
  induction Hl as [|x l Hx _ IH]; intros acc Hacc; simpl; [by eauto|].
  destruct (insert_by_total x acc Hx Hacc) as [acc' Hins]. rewrite Hins.
  apply IH. apply insert_by_Permutation in Hins. rewrite Hins.
  by constructor.
Qed.

End py_sort_total.

(** X16.  When every line that is kept has a naive timestamp with room for
    the window, the run ends without an exception. *)
Lemma compact_logs_total lines W thr :
  Forall (plain W) (read_lines [] 0 lines) ->
  exists outs, compact_logs (Opened lines None) W thr = Ok outs.
Proof.
  intros Hplain. rewrite compact_logs_windows. unfold compacted_windows.
  simpl. rewrite <- group_logs_Permutation in Hplain.
  destruct (compact_groups_total W thr _ Hplain) as [ws Hws]. rewrite Hws.
  destruct (sort_into_total (sort_key ∘ entry_of) [] ws) as [ws' Hws'].
  - constructor.
  - eapply Forall_impl; [exact (compact_groups_start _ _ _ _ Hws)|].
    intros w (r & Hr & Hw). simpl. rewrite Hw.
    rewrite Forall_forall in Hplain. by destruct (Hplain r Hr).
  - unfold py_sort. rewrite Hws'. by eauto.
Qed.


(** * Further properties of the program *)

(** ** [parse_fields] *)

Lemma parse_fields_from_none fields parts :
  parse_fields_from fields parts = None
  <-> exists part, part ∈ parts /\ Text.contains "=" part = false.
Proof.
  revert fields. induction parts as [|part parts IH]; intros fields; simpl.
  - split; [done|]. by intros (part & Hin%elem_of_nil & _).
  - destruct (Text.contains "=" part) eqn:Hc; simpl.
    + destruct (Text.split_once "=" part) as [key value]. rewrite IH. split.
      * intros (p & Hp & Hpc). exists p. split; [by apply list_elem_of_further|done].
      * intros (p & [->|Hp]%elem_of_cons & Hpc); [congruence|by exists p].
    + split; [|done]. intros _. exists part.
      split; [apply list_elem_of_here | done].
Qed.

(** X1.  [parse_fields] returns [None] exactly when one of the field tokens
    has no [=]; nothing else makes it fail. *)
Theorem parse_fields_none_iff parts :
  parse_fields parts = None
  <-> exists part, part ∈ parts /\ Text.contains "=" part = false.
Proof. apply parse_fields_from_none. Qed.

(** The last token decides what [parse_fields] adds last. *)
Lemma parse_fields_snoc parts part f :
  parse_fields (parts ++ [part]) = Some f ->
  exists f',
    parse_fields parts = Some f'
    /\ Text.contains "=" part = true
    /\ f = <[(Text.split_once "=" part).1 := (Text.split_once "=" part).2]> f'.
Proof.
  unfold parse_fields. rewrite parse_fields_from_app.
  destruct (parse_fields_from ∅ parts) as [f'|]; [|done]. simpl.
  destruct (Text.contains "=" part); [|done]. simpl.
  destruct (Text.split_once "=" part) as [key value]. intros [= <-].
  by exists f'.
Qed.

Lemma parse_fields_list_to_map parts f :
  parse_fields parts = Some f ->
  f = list_to_map (reverse (Text.split_once "=" <$> parts)).
Proof.
  revert f. induction parts as [|part parts IH] using rev_ind; intros f H.
  - by injection H as <-.
  - apply parse_fields_snoc in H as (f' & Hf' & _ & ->).
    rewrite fmap_app, reverse_app. simpl. by rewrite <- (IH f' Hf').
Qed.

(** X2.  The mapping [parse_fields] returns is the one of the pairs the
    tokens split into, a later token overriding an earlier one with the same
    key. *)
Theorem parse_fields_last_wins parts f :
  parse_fields parts = Some f ->
  f = list_to_map (reverse (Text.split_once "=" <$> parts)).
Proof. apply parse_fields_list_to_map. Qed.

Lemma parse_fields_last_wins_witness :
  parse_fields ["a=1"; "b=x=y"; "a=2"]
  = Some (<["a" := "2"]> (<["b" := "x=y"]> ∅))
  /\ (<["a" := "2"]> (<["b" := "x=y"]> ∅) : gmap string string)
     = list_to_map (reverse (Text.split_once "=" <$> ["a=1"; "b=x=y"; "a=2"])).
Proof.
  assert (H : parse_fields ["a=1"; "b=x=y"; "a=2"]
              = Some (<["a" := "2"]> (<["b" := "x=y"]> ∅)))
    by (vm_compute; reflexivity).
  split; [exact H|]. exact (parse_fields_last_wins _ _ H).
Defined.

(** A token with a [=] is its key, the [=] and its value, and the key has no
    [=]. *)
Lemma split_once_inv part :
  Text.contains "=" part = true ->
  part = (Text.split_once "=" part).1 +:+ "=" +:+ (Text.split_once "=" part).2
  /\ Text.contains "=" (Text.split_once "=" part).1 = false.
Proof.
  unfold Text.contains. induction part as [|d part IH]; [done|].
  cbn [Text.existsb_str Text.split_once].
  destruct (Ascii.eqb "=" d) eqn:Hd.
  - intros _. apply Ascii.eqb_eq in Hd as <-. split; reflexivity.
  - rewrite orb_false_l. intros H. destruct (IH H) as [Heq Hk].
    destruct (Text.split_once "=" part) as [k v]. cbn [fst snd] in *.
    cbn [Text.existsb_str]. rewrite Hd, orb_false_l. split; [|exact Hk].
    change (String d part = String d (k +:+ "=" +:+ v)). by rewrite <- Heq.
Qed.

(** X3.  Every field [parse_fields] records comes from a token: the key is
    the text before the first [=] of the token, so it has no [=] itself, and
    the value is all the text after it. *)
Theorem parse_fields_sound parts f k v :
  parse_fields parts = Some f ->
  f !! k = Some v ->
  (k +:+ "=" +:+ v) ∈ parts /\ Text.contains "=" k = false.
Proof.
  revert f. induction parts as [|part parts IH] using rev_ind; intros f H Hk.
  - injection H as <-. by rewrite lookup_empty in Hk.
  - apply parse_fields_snoc in H as (f' & Hf' & Hc & ->).
    destruct (split_once_inv part Hc) as [Hpart Hkey].
    destruct (decide ((Text.split_once "=" part).1 = k)) as [Heq|Hne].
    + rewrite Heq, lookup_insert_eq in Hk. injection Hk as Hv.
      rewrite Heq, Hv in Hpart. rewrite Heq in Hkey. split; [|done].
      rewrite <- Hpart. apply elem_of_app. right. apply list_elem_of_here.
    + rewrite lookup_insert_ne in Hk by done.
      destruct (IH f' Hf' Hk) as [Hin Hnk]. split; [|done].
      apply elem_of_app. by left.
Qed.

Lemma parse_fields_sound_witness :
  (parse_fields ["a=1"; "b=x=y"] = Some (<["b" := "x=y"]> (<["a" := "1"]> ∅))
   /\ (<["b" := "x=y"]> (<["a" := "1"]> ∅) : gmap string string) !! "b"
      = Some "x=y")
  /\ "b=x=y" ∈ ["a=1"; "b=x=y"] /\ Text.contains "=" "b" = false.
Proof.
  assert (H : parse_fields ["a=1"; "b=x=y"]
              = Some (<["b" := "x=y"]> (<["a" := "1"]> ∅)))
    by (vm_compute; reflexivity).
  assert (Hk : (<["b" := "x=y"]> (<["a" := "1"]> ∅) : gmap string string)
               !! "b" = Some "x=y") by (vm_compute; reflexivity).
  split; [exact (conj H Hk)|]. exact (parse_fields_sound _ _ "b" "x=y" H Hk).
Defined.

(** ** [normalize_user_field] *)

(** The two ways in which [normalize_user_field] returns a mapping. *)
Lemma normalize_some_inv (M N : gmap string string) :
  normalize_user_field M = Some N ->
  (M !! "user_id" = None /\ N = M)
  \/ (exists uid,
        M !! "user_id" = Some uid
        /\ (M !! "user" = None \/ M !! "user" = Some uid)
        /\ N = <["user" := uid]> (filter (λ kv, kv.1 ≠ "user_id") M)).
Proof.
  unfold normalize_user_field.
  destruct (M !! "user_id") as [uid|]; [|intros [= <-]; by left].
  destruct (M !! "user") as [u|].
  - destruct (String.eqb_spec u uid) as [->|]; simpl; [|done].
    intros [= <-]. right. exists uid. eauto.
  - intros [= <-]. right. exists uid. eauto.
Qed.

(** X4.  A mapping that [normalize_user_field] returns has no [user_id]
    key; its [user] is the [user_id] of the argument when there was one and
    the [user] of the argument otherwise; every other key has the value it
    had. *)
Theorem normalize_canonical (M N : gmap string string) :
  normalize_user_field M = Some N ->
  N !! "user_id" = None
  /\ N !! "user" = match M !! "user_id" with
                   | Some uid => Some uid
                   | None => M !! "user"
                   end
  /\ (forall k, k ≠ "user" -> k ≠ "user_id" -> N !! k = M !! k).
Proof.
  intros [[Hid ->]|(uid & Hid & _ & ->)]%normalize_some_inv.
  - by rewrite Hid.
  - rewrite Hid. split; [|split].
    + rewrite lookup_insert_ne by done.
      apply map_lookup_filter_None. right. intros v _ Hne. by destruct Hne.
    + apply lookup_insert_eq.
    + intros k Hu Hk. rewrite lookup_insert_ne by done.
      destruct (M !! k) as [v|] eqn:Hv.
      * by apply map_lookup_filter_Some_2.
      * apply map_lookup_filter_None. by left.
Qed.

Lemma normalize_canonical_witness :
  let M : gmap string string :=
    <["user_id" := "42"]> (<["user" := "42"]> (<["a" := "b"]> ∅)) in
  let N : gmap string string := <["user" := "42"]> (<["a" := "b"]> ∅) in
  normalize_user_field M = Some N
  /\ N !! "user_id" = None
  /\ N !! "user" = match M !! "user_id" with
                   | Some uid => Some uid
                   | None => M !! "user"
                   end
  /\ (forall k, k ≠ "user" -> k ≠ "user_id" -> N !! k = M !! k).
Proof.
  intros M N.
  assert (H : normalize_user_field M = Some N) by (vm_compute; reflexivity).
  split; [exact H|]. exact (normalize_canonical M N H).
Defined.

(** X5.  [normalize_user_field] returns [None] exactly when the mapping has
    both [user] and [user_id], with different values. *)
Theorem normalize_none_iff (M : gmap string string) :
  normalize_user_field M = None
  <-> exists u uid,
        M !! "user" = Some u /\ M !! "user_id" = Some uid /\ u ≠ uid.
Proof.
  unfold normalize_user_field. split.
  - destruct (M !! "user_id") as [uid|]; [|done].
    destruct (M !! "user") as [u|]; [|done].
    destruct (String.eqb_spec u uid) as [->|Hne]; simpl; [done|].
    intros _. by exists u, uid.
  - intros (u & uid & -> & -> & Hne).
    by destruct (String.eqb_spec u uid).
Qed.

(** ** The records of [logs] *)

Lemma parse_parts_inv parts t l f :
  parse_parts parts = Some (t, l, f) ->
  exists ts_str lvl rest f0,
    parts = ts_str :: lvl :: rest
    /\ Datetime.fromisoformat ts_str = Ok t
    /\ lvl ≠ "" /\ Text.isupper lvl = true
    /\ parse_fields rest = Some f0
    /\ normalize_user_field f0 = Some f
    /\ l = apply_code_override lvl f.
Proof.
  destruct parts as [|ts_str [|lvl rest]]; try done.
  unfold parse_parts, parse_timestamp.
  destruct (Datetime.fromisoformat ts_str) as [d|] eqn:Hd; [|done].
  cbn [mbind option_bind].
  destruct (Text.is_empty lvl) eqn:He; [done|].
  destruct (Text.isupper lvl) eqn:Hup; [|done]. cbn [negb orb].
  destruct (parse_fields rest) as [f0|] eqn:Hf; [|done].
  cbn [mbind option_bind].
  destruct (normalize_user_field f0) as [f1|] eqn:Hn; [|done].
  cbn [mbind option_bind].
  intros [= <- <- <-]. exists ts_str, lvl, rest, f0.
  split; [done|]. split; [done|]. split; [by intros ->|]. by repeat split.
Qed.

Lemma parse_line_inv line t l f :
  parse_line line = Some (t, l, f) ->
  parse_parts (Text.split (Text.strip line)) = Some (t, l, f).
Proof.
  unfold parse_line. by destruct (Text.is_empty (Text.strip line)).
Qed.

(** Every record comes from a line that [parse_line] keeps. *)
Lemma read_lines_elem i lines r :
  r ∈ read_lines [] i lines ->
  exists line, line ∈ lines /\ parse_line line = Some (ts r, level r, fields r).
Proof.
  revert i. induction lines as [|line lines IH]; intros i; simpl.
  - by intros ?%elem_of_nil.
  - destruct (parse_line line) as [[[t l] f]|] eqn:Hline.
    + rewrite read_lines_app. intros [Hr|Hr]%elem_of_app.
      * apply list_elem_of_singleton in Hr as ->. exists line.
        split; [apply list_elem_of_here | done].
      * destruct (IH _ Hr) as (line' & Hin & Hp). exists line'.
        split; [by apply list_elem_of_further | done].
    + intros Hr. destruct (IH _ Hr) as (line' & Hin & Hp). exists line'.
      split; [by apply list_elem_of_further | done].
Qed.

(** The [code] field of a mapping reads as an integer from 500 to 599. *)
Definition server_error_code (fields : gmap string string) : bool :=
  match fields !! "code" with
  | Some c =>
      match py_int c with
      | Some code => (500 <=? code) && (code <=? 599)
      | None => false
      end
  | None => false
  end.

(** X6.  Every record of [logs] has gone through the normalization and the
    override: it has no [user_id] field; its level passes [isupper]; and its
    level is [ERROR] when its [code] field reads as an integer from 500 to
    599, whatever the level of the line was. *)
Theorem records_normalized i lines r :
  r ∈ read_lines [] i lines ->
  fields r !! "user_id" = None
  /\ Text.isupper (level r) = true
  /\ (server_error_code (fields r) = true -> level r = "ERROR").
Proof.
  intros (line & _ & Hline)%read_lines_elem.
  apply parse_line_inv, parse_parts_inv in Hline
    as (ts_str & lvl & rest & f0 & _ & _ & _ & Hup & _ & Hn & Hl).
  apply normalize_some_inv in Hn. split; [|split].
  - destruct Hn as [[Hid ->]|(uid & _ & _ & ->)]; [done|].
    rewrite lookup_insert_ne by done.
    apply map_lookup_filter_None. right. intros v _ Hne. by destruct Hne.
  - rewrite Hl. unfold apply_code_override.
    destruct (fields r !! "code") as [c|]; [|done].
    destruct (py_int c) as [n|]; [|done]. by destruct (_ && _).
  - rewrite Hl. unfold server_error_code, apply_code_override.
    destruct (fields r !! "code") as [c|]; [|done].
    destruct (py_int c) as [n|]; [|done]. by intros ->.
Qed.

Lemma records_normalized_witness :
  let lines := ["2024-01-01T10:00:00 INFO code=503 user_id=7"] in
  let r := mk_log (Datetime.make 2024 1 1 10 0 0 0 None) "ERROR"
                  (<["user" := "7"]> (<["code" := "503"]> ∅)) 0 in
  r ∈ read_lines [] 0 lines
  /\ fields r !! "user_id" = None
  /\ Text.isupper (level r) = true
  /\ (server_error_code (fields r) = true -> level r = "ERROR").
Proof.
  intros lines r.
  assert (H : r ∈ read_lines [] 0 lines).
  { assert (Heq : read_lines [] 0 lines = [r]) by (vm_compute; reflexivity).
    rewrite Heq. apply list_elem_of_here. }
  split; [exact H|]. exact (records_normalized 0 lines r H).
Defined.

(** X7.  [user_id=v] and [user=v] are interchangeable: on a mapping with
    neither key, adding the one or the other gives the same normalized
    mapping, with [user] set to [v]. *)
Theorem user_id_same_as_user (f : gmap string string) v :
  f !! "user" = None -> f !! "user_id" = None ->
  normalize_user_field (<["user_id" := v]> f) = Some (<["user" := v]> f)
  /\ normalize_user_field (<["user" := v]> f) = Some (<["user" := v]> f).
Proof.
  intros Hu Hid. unfold normalize_user_field. split.
  - rewrite lookup_insert_eq, lookup_insert_ne, Hu by done.
    rewrite map_filter_insert_False by (intros Hne; by destruct Hne).
    rewrite (delete_id f "user_id" Hid).
    rewrite map_filter_id; [done|].
    intros k x Hk Heq. simpl in Heq. congruence.
  - by rewrite lookup_insert_ne, Hid by done.
Qed.

Lemma user_id_same_as_user_witness :
  let f : gmap string string := {[ "a" := "1" ]} in
  (f !! "user" = None /\ f !! "user_id" = None)
  /\ normalize_user_field (<["user_id" := "42"]> f) = Some (<["user" := "42"]> f)
  /\ normalize_user_field (<["user" := "42"]> f) = Some (<["user" := "42"]> f).
Proof.
  intros f.
  assert (Hu : f !! "user" = None) by (vm_compute; reflexivity).
  assert (Hid : f !! "user_id" = None) by (vm_compute; reflexivity).
  split; [exact (conj Hu Hid)|]. exact (user_id_same_as_user f "42" Hu Hid).
Defined.

(** ** Group keys and groups *)

Lemma insert_sorted_Permutation {A} (ltb : A -> A -> bool) x l :
  insert_sorted ltb x l ≡ₚ x :: l.
Proof.
  induction l as [|y l IH]; simpl; [done|].
  destruct (ltb x y); [done|]. rewrite IH. apply perm_swap.
Qed.

Lemma py_sorted_Permutation {A} (ltb : A -> A -> bool) l :
  py_sorted ltb l ≡ₚ l.
Proof.
  unfold py_sorted.
  assert (H : forall acc,
             foldl (fun acc x => insert_sorted ltb x acc) acc l ≡ₚ acc ++ l).
  { induction l as [|x l IH]; intros acc; simpl.
    - by rewrite app_nil_r.
    - rewrite IH, insert_sorted_Permutation. by rewrite <- Permutation_middle. }
  apply (H []).
Qed.

Lemma make_group_key_inj l1 (f1 : gmap string string) l2 f2 :
  make_group_key l1 f1 = make_group_key l2 f2 -> l1 = l2 /\ f1 = f2.
Proof.
  unfold make_group_key. intros [= Hl Hitems]. split; [done|].
  apply map_to_list_inj.
  by rewrite <- (py_sorted_Permutation item_ltb (map_to_list f1)), Hitems,
             py_sorted_Permutation.
Qed.

(** X8.  Two records have the same group key exactly when they have the same
    level and the same fields. *)
Theorem make_group_key_eq_iff l1 (f1 : gmap string string) l2 f2 :
  make_group_key l1 f1 = make_group_key l2 f2 <-> l1 = l2 /\ f1 = f2.
Proof. split; [apply make_group_key_inj | by intros [-> ->]]. Qed.

Lemma groups_append_nonempty key r gs :
  Forall (fun kg => kg.2 ≠ []) gs ->
  Forall (fun kg => kg.2 ≠ []) (groups_append key r gs).
Proof.
  induction 1 as [|[k g] gs Hg Hgs IH]; simpl.
  - by repeat constructor.
  - case_decide.
    + constructor; [simpl; by destruct g | done].
    + by constructor.
Qed.

Lemma group_logs_nonempty logs :
  Forall (fun kg => kg.2 ≠ []) (group_logs logs).
Proof.
  unfold group_logs.
  assert (H : forall gs, Forall (fun kg => kg.2 ≠ []) gs ->
    Forall (fun kg => kg.2 ≠ [])
      (foldl (fun groups r =>
                groups_append (make_group_key (level r) (fields r)) r groups)
             gs logs)).
  { induction logs as [|r logs IH]; intros gs Hgs; simpl; [done|].
    by apply IH, groups_append_nonempty. }
  by apply H.
Qed.

Lemma group_logs_NoDup logs : NoDup (group_logs logs).*1.
Proof. apply (foldl_step_NoDup logs []). constructor. Qed.

Lemma group_logs_lookup logs k :
  lookup_group k (group_logs logs) = filter (fun r => key_of r = k) logs.
Proof. exact (foldl_step_lookup k logs []). Qed.

Lemma lookup_group_nonempty k gs :
  lookup_group k gs ≠ [] -> (k, lookup_group k gs) ∈ gs.
Proof.
  induction gs as [|[k' g] gs IH]; simpl; [done|].
  case_decide as Hk; intros H.
  - subst k'. apply list_elem_of_here.
  - by apply list_elem_of_further, IH.
Qed.

(** X9.  The groups partition the records by key: a key has one group; no
    group is empty; a group holds exactly the records of [logs] with its
    key, in their order, which all have the level of the key and the same
    fields; and every record of [logs] is in the group of its key. *)
Theorem group_members logs key g :
  (key, g) ∈ group_logs logs ->
  g ≠ []
  /\ (forall g', (key, g') ∈ group_logs logs -> g' = g)
  /\ g = filter (fun r => make_group_key (level r) (fields r) = key) logs
  /\ (forall r, r ∈ g ->
        r ∈ logs /\ level r = key.1
        /\ forall r', r' ∈ g -> fields r' = fields r)
  /\ (forall r, r ∈ logs ->
        exists g', (make_group_key (level r) (fields r), g') ∈ group_logs logs
                   /\ r ∈ g').
Proof.
  intros Hg. split; [|split; [|split; [|split]]].
  - pose proof (group_logs_nonempty logs) as H.
    rewrite Forall_forall in H. exact (H _ Hg).
  - intros g' Hg'.
    rewrite <- (lookup_group_elem_of key g _ (group_logs_NoDup logs) Hg).
    by rewrite <- (lookup_group_elem_of key g' _ (group_logs_NoDup logs) Hg').
  - exact (group_logs_filter _ _ _ Hg).
  - pose proof (group_logs_filter _ _ _ Hg) as ->.
    intros r [Hr Hin]%list_elem_of_filter. split; [done|].
    unfold key_of in Hr. split; [by rewrite <- Hr|].
    intros r' [Hr' _]%list_elem_of_filter. unfold key_of in Hr'.
    rewrite <- Hr in Hr'. by apply make_group_key_inj in Hr' as [_ ?].
  - intros r Hr.
    assert (Hin : r ∈ lookup_group (key_of r) (group_logs logs)).
    { rewrite group_logs_lookup. by apply list_elem_of_filter. }
    exists (lookup_group (key_of r) (group_logs logs)). split; [|done].
    apply lookup_group_nonempty. intros Hnil. rewrite Hnil in Hin.
    by apply elem_of_nil in Hin.
Qed.

Lemma group_members_witness :
  let r0 := mk_log (Datetime.make 2024 1 1 10 0 0 0 None) "INFO"
                   {[ "a" := "1" ]} 0 in
  let r1 := mk_log (Datetime.make 2024 1 1 10 0 1 0 None) "WARN"
                   {[ "a" := "1" ]} 1 in
  let r2 := mk_log (Datetime.make 2024 1 1 10 0 2 0 None) "INFO"
                   {[ "a" := "1" ]} 2 in
  let key : group_key := ("INFO", [("a", "1")]) in
  let logs := [r0; r1; r2] in
  let g := [r0; r2] in
  (key, g) ∈ group_logs logs
  /\ g ≠ []
  /\ (forall g', (key, g') ∈ group_logs logs -> g' = g)
  /\ g = filter (fun r => make_group_key (level r) (fields r) = key) logs
  /\ (forall r, r ∈ g ->
        r ∈ logs /\ level r = key.1
        /\ forall r', r' ∈ g -> fields r' = fields r)
  /\ (forall r, r ∈ logs ->
        exists g', (make_group_key (level r) (fields r), g') ∈ group_logs logs
                   /\ r ∈ g').
Proof.
  intros r0 r1 r2 key logs g.
  assert (H : (key, g) ∈ group_logs logs).
  { assert (Heq : group_logs logs
                  = [(key, g); (("WARN", [("a", "1")]), [r1])])
      by (vm_compute; reflexivity).
    rewrite Heq. apply list_elem_of_here. }
  split; [exact H|]. exact (group_members logs key g H).
Defined.

(** ** Windows *)

(** Every window is closed on a first member and the members absorbed after
    it. *)
Lemma window_loop_shape W thr level g ws :
  window_loop W thr level g = Ok ws ->
  Forall (fun w => exists r a,
            window_group w = r :: a /\ w = close_window thr level r (r :: a)) ws.
Proof.
  revert g ws. apply window_loop_ok_ind; [done|].
  intros r a rest' window_end ws _ _ _ _ IH. constructor; [|done].
  by exists r, a.
Qed.

Lemma window_loop_heads W thr level g ws :
  window_loop W thr level g = Ok ws ->
  head (start_ts <$> ws) = head (ts <$> g)
  /\ (forall i w1 w2, ws !! i = Some w1 -> ws !! S i = Some w2 ->
        Datetime.instant (start_ts w1) + W * Datetime.US_PER_SECOND
        < Datetime.instant (start_ts w2)).
Proof.
  revert g ws. apply window_loop_ok_ind.
  - split; [done|]. intros i w1 w2 H. by rewrite lookup_nil in H.
  - intros r a rest' window_end ws Hadd _ Hrest' _ [Hhead Hcons].
    split; [done|]. intros [|i] w1 w2 H1 H2; simpl in H1, H2.
    + injection H1 as <-. simpl.
      destruct ws as [|w ws]; [done|]. simpl in H2. injection H2 as ->.
      destruct rest' as [|y tl]; [done|]. simpl in Hhead.
      injection Hhead as ->.
      apply add_seconds_instant in Hadd as [_ Hend].
      pose proof (Hrest' y tl eq_refl) as [_ Hy]%le_false. lia.
    + by apply (Hcons i).
Qed.

(** X10.  In the sequence of windows of one group, each window starts more
    than [dedup_window_seconds] after the start of the window before it:
    a window is closed only by a record outside of it. *)
Theorem window_starts_apart W thr level g ws i w1 w2 :
  window_loop W thr level g = Ok ws ->
  ws !! i = Some w1 -> ws !! S i = Some w2 ->
  Datetime.instant (start_ts w1) + W * Datetime.US_PER_SECOND
  < Datetime.instant (start_ts w2).
Proof.
  intros Hws. by apply (proj2 (window_loop_heads W thr level g ws Hws)).
Qed.

Lemma window_starts_apart_witness :
  let r0 := mk_log (Datetime.make 2024 1 1 10 0 0 0 None) "INFO"
                   {[ "a" := "1" ]} 0 in
  let r1 := mk_log (Datetime.make 2024 1 1 10 0 5 0 None) "INFO"
                   {[ "a" := "1" ]} 1 in
  let r2 := mk_log (Datetime.make 2024 1 1 10 0 30 0 None) "INFO"
                   {[ "a" := "1" ]} 2 in
  let w1 := close_window 2 "INFO" r0 [r0; r1] in
  let w2 := close_window 2 "INFO" r2 [r2] in
  (window_loop 10 2 "INFO" [r0; r1; r2] = Ok [w1; w2]
   /\ [w1; w2] !! 0%nat = Some w1 /\ [w1; w2] !! 1%nat = Some w2)
  /\ Datetime.instant (start_ts w1) + 10 * Datetime.US_PER_SECOND
     < Datetime.instant (start_ts w2).
Proof.
  intros r0 r1 r2 w1 w2.
  assert (H : window_loop 10 2 "INFO" [r0; r1; r2] = Ok [w1; w2])
    by (vm_compute; reflexivity).
  assert (H1 : [w1; w2] !! 0%nat = Some w1) by reflexivity.
  assert (H2 : [w1; w2] !! 1%nat = Some w2) by reflexivity.
  split; [exact (conj H (conj H1 H2))|].
  exact (window_starts_apart 10 2 "INFO" [r0; r1; r2] [w1; w2] 0 w1 w2 H H1 H2).
Defined.

(** X11.  The level that the line of a window shows: [CRITICAL] when the
    level of the group is [ERROR] and the window has at least
    [error_threshold] members, the level of the group in every other
    case. *)
Theorem escalation_rule W thr level g ws w :
  window_loop W thr level g = Ok ws ->
  w ∈ ws ->
  (level = "ERROR" -> thr <= Z.of_nat (count w) ->
   output_level w = "CRITICAL"
   /\ output w = format_output (start_ts w) (end_ts w) "CRITICAL"
                               (w_fields w) (count w))
  /\ (level ≠ "ERROR" \/ Z.of_nat (count w) < thr ->
      output_level w = level
      /\ output w = format_output (start_ts w) (end_ts w) level
                                  (w_fields w) (count w)).
Proof.
  intros Hws Hw.
  pose proof (window_loop_shape _ _ _ _ _ Hws) as Hshape.
  rewrite Forall_forall in Hshape. destruct (Hshape w Hw) as (r & a & _ & ->).
  cbn [output output_level start_ts end_ts w_fields count close_window].
  split.
  - intros -> Hthr. by rewrite (proj2 (Z.leb_le _ _) Hthr).
  - intros [Hne|Hlt].
    + destruct (String.eqb_spec level "ERROR"); [done|].
      by rewrite andb_false_r.
    + by rewrite (proj2 (Z.leb_gt _ _) Hlt).
Qed.

Lemma escalation_rule_witness :
  let r0 := mk_log (Datetime.make 2024 1 1 10 0 0 0 None) "ERROR"
                   {[ "a" := "1" ]} 0 in
  let r1 := mk_log (Datetime.make 2024 1 1 10 0 5 0 None) "ERROR"
                   {[ "a" := "1" ]} 1 in
  let r2 := mk_log (Datetime.make 2024 1 1 10 0 6 0 None) "ERROR"
                   {[ "a" := "1" ]} 2 in
  let w := close_window 2 "ERROR" r0 [r0; r1; r2] in
  (window_loop 10 2 "ERROR" [r0; r1; r2] = Ok [w] /\ w ∈ [w]
   /\ 2 <= Z.of_nat (count w))
  /\ (output_level w = "CRITICAL"
      /\ output w = format_output (start_ts w) (end_ts w) "CRITICAL"
                                  (w_fields w) (count w))
  /\ output w = "2024-01-01T10:00:00~10:00:06 CRITICAL a=1 (x3)".
Proof.
  intros r0 r1 r2 w.
  assert (H : window_loop 10 2 "ERROR" [r0; r1; r2] = Ok [w])
    by (vm_compute; reflexivity).
  assert (Hw : w ∈ [w]) by apply list_elem_of_here.
  assert (Hc : 2 <= Z.of_nat (count w)) by (vm_compute; discriminate).
  split; [exact (conj H (conj Hw Hc))|].
  split; [|vm_compute; reflexivity].
  exact (proj1 (escalation_rule 10 2 "ERROR" [r0; r1; r2] [w] w H Hw)
               eq_refl Hc).
Defined.

Lemma sorted_join_elem {A} (R : relation A) (ls : list (list A)) l :
  StronglySorted R (mjoin ls) -> l ∈ ls -> StronglySorted R l.
Proof.
  induction ls as [|l' ls IH]; simpl; [by intros _ ?%elem_of_nil|].
  intros (_ & Hl' & Hls)%StronglySorted_app [->|Hl]%elem_of_cons; [done|].
  by apply IH.
Qed.

Lemma last_cons_cons {A} (x y : A) l d :
  List.last (x :: y :: l) d = List.last (y :: l) d.
Proof. done. Qed.

Lemma last_elem_of {A} (l : list A) x d : List.last (x :: l) d ∈ x :: l.
Proof.
  revert x. induction l as [|y l IH]; intros x.
  - apply list_elem_of_here.
  - rewrite last_cons_cons. apply list_elem_of_further, IH.
Qed.

Lemma last_idx_greatest (l : list log) x d m :
  StronglySorted idx_lt (x :: l) -> m ∈ x :: l ->
  (idx m <= idx (List.last (x :: l) d))%nat.
Proof.
  revert x m. induction l as [|y l IH]; intros x m Hs Hm.
  - apply list_elem_of_singleton in Hm as ->. done.
  - rewrite last_cons_cons. apply StronglySorted_cons in Hs as [Hx Hs].
    apply elem_of_cons in Hm as [->|Hm]; [|by apply IH].
    rewrite Forall_forall in Hx.
    pose proof (Hx y (list_elem_of_here _ _)) as Hxy. unfold idx_lt in Hxy.
    pose proof (IH y y Hs (list_elem_of_here _ _)). lia.
Qed.

(** X12.  What a window reports about the records read from a file: [start]
    and [first_idx] are the timestamp and the index of the member that was
    read first, [end] is the timestamp of the member that was read last,
    [count] is the number of members, and every member has the fields the
    window reports and the level of the group. *)
Theorem window_summary lines W thr key g ws w :
  (key, g) ∈ group_logs (read_lines [] 0 lines) ->
  window_loop W thr key.1 g = Ok ws ->
  w ∈ ws ->
  exists first last_,
    first ∈ window_group w /\ last_ ∈ window_group w
    /\ start_ts w = ts first /\ first_idx w = idx first
    /\ end_ts w = ts last_
    /\ count w = length (window_group w)
    /\ (forall m, m ∈ window_group w ->
          (idx first <= idx m <= idx last_)%nat
          /\ fields m = w_fields w /\ level m = key.1).
Proof.
  intros Hg Hws Hw.
  pose proof (window_loop_shape _ _ _ _ _ Hws) as Hshape.
  rewrite Forall_forall in Hshape.
  destruct (Hshape w Hw) as (r & a & Hwg & Hclose).
  assert (Hsub : forall m, m ∈ window_group w -> m ∈ g).
  { intros m Hm. rewrite <- (window_loop_concat _ _ _ _ _ Hws).
    apply list_elem_of_join. exists (window_group w). split; [done|].
    by apply list_elem_of_fmap_2. }
  pose proof (group_logs_filter _ _ _ Hg) as Hfilter.
  assert (Hsorted : StronglySorted idx_lt (r :: a)).
  { rewrite <- Hwg.
    apply (sorted_join_elem idx_lt (window_group <$> ws));
      [|by apply list_elem_of_fmap_2].
    rewrite (window_loop_concat _ _ _ _ _ Hws), Hfilter.
    apply StronglySorted_filter, read_lines_sorted. }
  assert (Hkey : forall m, m ∈ window_group w -> key_of m = key).
  { intros m Hm%Hsub. rewrite Hfilter in Hm.
    by apply list_elem_of_filter in Hm as [? _]. }
  exists r, (List.last (r :: a) r). rewrite Hwg.
  split; [apply list_elem_of_here|]. split; [apply last_elem_of|].
  rewrite Hclose. cbn [start_ts first_idx end_ts count w_fields close_window hd].
  repeat split; try done.
  - apply StronglySorted_cons in Hsorted as [Hr _].
    rewrite Forall_forall in Hr.
    apply elem_of_cons in H as [->|Hm]; [done|].
    specialize (Hr m Hm). unfold idx_lt in Hr. lia.
  - by apply last_idx_greatest.
  - rewrite <- Hwg in H. apply Hkey in H.
    pose proof (Hkey r) as Hr. rewrite Hwg in Hr.
    specialize (Hr (list_elem_of_here _ _)). rewrite <- Hr in H.
    by apply make_group_key_inj in H as [_ ?].
  - rewrite <- Hwg in H. apply Hkey in H. by rewrite <- H.
Qed.

Lemma window_summary_witness :
  let lines := ["2024-01-01T10:00:00 INFO a=1";
                "2024-01-01T10:00:02 WARN b=2";
                "2024-01-01T10:00:05 INFO a=1"] in
  let r0 := mk_log (Datetime.make 2024 1 1 10 0 0 0 None) "INFO"
                   {[ "a" := "1" ]} 0 in
  let r2 := mk_log (Datetime.make 2024 1 1 10 0 5 0 None) "INFO"
                   {[ "a" := "1" ]} 2 in
  let key : group_key := ("INFO", [("a", "1")]) in
  let w := close_window 2 "INFO" r0 [r0; r2] in
  ((key, [r0; r2]) ∈ group_logs (read_lines [] 0 lines)
   /\ window_loop 10 2 key.1 [r0; r2] = Ok [w] /\ w ∈ [w])
  /\ exists first last_,
      first ∈ window_group w /\ last_ ∈ window_group w
      /\ start_ts w = ts first /\ first_idx w = idx first
      /\ end_ts w = ts last_
      /\ count w = length (window_group w)
      /\ (forall m, m ∈ window_group w ->
            (idx first <= idx m <= idx last_)%nat
            /\ fields m = w_fields w /\ level m = key.1).
Proof.
  intros lines r0 r2 key w.
  assert (Hg : (key, [r0; r2]) ∈ group_logs (read_lines [] 0 lines)).
  { assert (Heq : group_logs (read_lines [] 0 lines)
                  = [(key, [r0; r2]);
                     (("WARN", [("b", "2")]),
                      [mk_log (Datetime.make 2024 1 1 10 0 2 0 None) "WARN"
                              {[ "b" := "2" ]} 1])])
      by (vm_compute; reflexivity).
    rewrite Heq. apply list_elem_of_here. }
  assert (Hws : window_loop 10 2 key.1 [r0; r2] = Ok [w])
    by (vm_compute; reflexivity).
  assert (Hw : w ∈ [w]) by apply list_elem_of_here.
  split; [exact (conj Hg (conj Hws Hw))|].
  exact (window_summary lines 10 2 key [r0; r2] [w] w Hg Hws Hw).
Defined.

(** ** Lines that are discarded *)

Lemma read_lines_kept i lines :
  read_lines [] i (filter (fun line => is_Some (parse_line line)) lines)
  = read_lines [] i lines.
Proof.
  revert i. induction lines as [|line lines IH]; intros i; [done|].
  rewrite filter_cons. simpl.
  destruct (parse_line line) as [[[t l] f]|] eqn:Hline.
  - rewrite decide_True by eauto. simpl. rewrite Hline.
    rewrite read_lines_app, (read_lines_app [_]). by rewrite IH.
  - rewrite decide_False by (by intros [? ?]). apply IH.
Qed.

(** X13.  The lines that are discarded leave no trace: the run on a file is
    the run on the file without them, the same lines yielded or the same
    exception raised. *)
Theorem discarded_lines_leave_no_trace lines W thr :
  compact_logs
    (Opened (filter (fun line => is_Some (parse_line line)) lines) None) W thr
  = compact_logs (Opened lines None) W thr.
Proof. unfold compact_logs, read_logs. by rewrite read_lines_kept. Qed.

(** X14.  A line of white space only is discarded. *)
Theorem blank_line_discarded line :
  Text.forallb_str Text.is_space line = true -> parse_line line = None.
Proof.
  intros H. unfold parse_line.
  assert (Hstrip : Text.strip line = "").
  { unfold Text.strip.
    assert (Hl : Text.lstrip line = "").
    { induction line as [|c line IH]; [done|]. simpl in H |- *.
      apply andb_true_iff in H as [Hc H]. rewrite Hc. by apply IH. }
    by rewrite Hl. }
  by rewrite Hstrip.
Qed.

Lemma blank_line_discarded_witness :
  Text.forallb_str Text.is_space "   " = true /\ parse_line "   " = None.
Proof.
  assert (H : Text.forallb_str Text.is_space "   " = true) by reflexivity.
  split; [exact H|]. exact (blank_line_discarded "   " H).
Defined.

(** ** Exceptions *)

Lemma absorb_raise window_end window_group rest e :
  absorb window_end window_group rest = Raise e -> e = TypeError.
Proof.
  revert window_group. induction rest as [|r rest IH]; intros g; simpl; [done|].
  unfold Datetime.le at 1.
  destruct (Bool.eqb _ _); [|by intros [= <-]].
  destruct (_ <=? _); [apply IH | done].
Qed.

Lemma window_loop_raise W thr level g e :
  window_loop W thr level g = Raise e -> e = TypeError \/ e = OverflowError.
Proof.
  remember (length g) as n eqn:Hn. revert g Hn.
  induction n as [n IH] using lt_wf_ind. intros [|r rest] Hn.
  - by simp window_loop.
  - rewrite window_loop_cons. unfold Datetime.add_seconds at 1.
    destruct (_ && _); [|intros [= <-]; by right].
    destruct (absorb _ [r] rest) as [[wg rest']|e'] eqn:Habs.
    + destruct (window_loop W thr level rest') as [ws|e'] eqn:Hrec; [done|].
      intros [= <-]. apply (IH (length rest')) with (g := rest'); [|done|done].
      apply absorb_length in Habs. subst n. simpl. lia.
    + intros [= <-]. left. by eapply absorb_raise.
Qed.

Lemma compact_groups_raise W thr gs e :
  compact_groups W thr gs = Raise e -> e = TypeError \/ e = OverflowError.
Proof.
  induction gs as [|[key g] gs IH]; simpl; [done|].
  destruct (window_loop W thr key.1 g) as [ws|e'] eqn:Hws.
  - destruct (compact_groups W thr gs) as [ws'|e']; [done|].
    intros [= <-]. by apply IH.
  - intros [= <-]. by eapply window_loop_raise.
Qed.

Lemma key_lt_raise a b e : key_lt a b = Raise e -> e = TypeError.
Proof.
  unfold key_lt, Datetime.lt. destruct (Datetime.eqb _ _); [done|].
  destruct (Bool.eqb _ _); [done|]. by intros [= <-].
Qed.

Lemma insert_by_raise {A} (key : A -> Datetime.datetime * nat) x l e :
  insert_by key key_lt x l = Raise e -> e = TypeError.
Proof.
  induction l as [|y l IH]; simpl; [done|].
  destruct (key_lt (key x) (key y)) as [[|]|e'] eqn:Hlt; [done| |].
  - destruct (insert_by key key_lt x l); [done|]. intros [= <-]. by apply IH.
  - intros [= <-]. by eapply key_lt_raise.
Qed.

Lemma sort_into_raise {A} (key : A -> Datetime.datetime * nat) acc l e :
  sort_into key key_lt acc l = Raise e -> e = TypeError.
Proof.
  revert acc. induction l as [|x l IH]; intros acc; simpl; [done|].
  destruct (insert_by key key_lt x acc) as [acc'|e'] eqn:Hins; [apply IH|].
  intros [= <-]. by eapply insert_by_raise.
Qed.

(** X15.  The exceptions that leave [compact_logs]: never an I/O error; and
    when the file was read to its end, nothing but a [TypeError] from the
    comparison of a naive with an aware timestamp or an [OverflowError] from
    the end of a window. *)
Theorem exceptions_raised src W thr e :
  compact_logs src W thr = Raise e ->
  e ≠ OSError
  /\ (forall lines, src = Opened lines None ->
        e = TypeError \/ e = OverflowError).
Proof.
  rewrite compact_logs_windows.
  destruct (compacted_windows src W thr) as [ws|e'] eqn:H; [done|].
  intros [= ->]. unfold compacted_windows in H.
  assert (Hend : forall logs, read_logs src = Ok logs ->
                              e = TypeError \/ e = OverflowError).
  { intros logs Hlogs. rewrite Hlogs in H.
    destruct (compact_groups W thr (group_logs logs)) as [ws|e'] eqn:Hgs.
    - left. by eapply sort_into_raise.
    - injection H as ->. by eapply compact_groups_raise. }
  split.
  - destruct (read_logs src) as [logs|e0] eqn:Hsrc.
    + by destruct (Hend logs eq_refl) as [->| ->].
    + destruct e0; [done| | |]; by injection H as <-.
  - intros lines ->. by apply (Hend (read_lines [] 0 lines)).
Qed.

Lemma exceptions_raised_witness :
  let src := Opened ["2024-01-01T10:00:00+05:00 INFO a=1";
                     "2024-01-01T10:00:00 INFO a=1"] None in
  compact_logs src 10 2 = Raise TypeError
  /\ TypeError ≠ OSError
  /\ (forall lines, src = Opened lines None ->
        TypeError = TypeError \/ TypeError = OverflowError).
Proof.
  intros src.
  assert (H : compact_logs src 10 2 = Raise TypeError)
    by (vm_compute; reflexivity).
  split; [exact H|]. exact (exceptions_raised src 10 2 TypeError H).
Defined.

Lemma compact_logs_total_witness :
  let lines := ["2024-01-01T10:00:00 INFO a=1"; "9999-12-31T23:59:49 WARN b=2"] in
  Forall (plain 10) (read_lines [] 0 lines)
  /\ exists outs, compact_logs (Opened lines None) 10 2 = Ok outs.
Proof.
  intros lines.
  assert (H : Forall (plain 10) (read_lines [] 0 lines)).
  { assert (Heq : read_lines [] 0 lines
                  = [mk_log (Datetime.make 2024 1 1 10 0 0 0 None) "INFO"
                            {[ "a" := "1" ]} 0;
                     mk_log (Datetime.make 9999 12 31 23 59 49 0 None) "WARN"
                            {[ "b" := "2" ]} 1])
      by (vm_compute; reflexivity).
    rewrite Heq.
    repeat constructor; vm_compute; (discriminate || reflexivity). }
  split; [exact H|]. exact (compact_logs_total lines 10 2 H).
Defined.

(** At the last second that leaves room for the window the run ends; one
    second later the end of the window is out of range. *)
Example overflow_ex :
  (compact_logs (Opened ["9999-12-31T23:59:49 WARN b=2"] None) 10 2,
   compact_logs (Opened ["9999-12-31T23:59:50 WARN b=2"] None) 10 2)
  = (Ok ["9999-12-31T23:59:49 WARN b=2"], Raise OverflowError).
Proof. vm_compute. reflexivity. Qed.

(** ** Output *)

Lemma datetime_eqb_refl d : Datetime.eqb d d = true.
Proof. unfold Datetime.eqb. by rewrite Bool.eqb_reflx, Z.eqb_refl. Qed.

(** X17.  A window of one member is written with its one timestamp, without
    a range and without a count: the output is the timestamp, the level and
    the fields in the order of their keys. *)
Theorem single_member_output W thr level g ws w :
  window_loop W thr level g = Ok ws ->
  w ∈ ws ->
  count w = 1%nat ->
  end_ts w = start_ts w
  /\ output w
     = Datetime.isoformat (start_ts w) +:+ " " +:+ output_level w +:+ " " +:+
       Text.join " " (map (fun kv => kv.1 +:+ "=" +:+ kv.2)
                          (py_sorted item_ltb (map_to_list (w_fields w)))).
Proof.
  intros Hws Hw.
  pose proof (window_loop_shape _ _ _ _ _ Hws) as Hshape.
  rewrite Forall_forall in Hshape. destruct (Hshape w Hw) as (r & a & _ & ->).
  cbn [count close_window length]. intros [= Ha].
  destruct a as [|? ?]; [|done].
  cbn [start_ts end_ts output output_level w_fields close_window hd List.last
       length].
  split; [done|].
  unfold format_output, format_timestamp_range.
  by rewrite datetime_eqb_refl.
Qed.

Lemma single_member_output_witness :
  let r0 := mk_log (Datetime.make 2024 1 1 10 0 0 0 None) "INFO"
                   (<["b" := "2"]> {[ "a" := "1" ]}) 0 in
  let w := close_window 2 "INFO" r0 [r0] in
  (window_loop 10 2 "INFO" [r0] = Ok [w] /\ w ∈ [w] /\ count w = 1%nat)
  /\ end_ts w = start_ts w
  /\ output w
     = Datetime.isoformat (start_ts w) +:+ " " +:+ output_level w +:+ " " +:+
       Text.join " " (map (fun kv => kv.1 +:+ "=" +:+ kv.2)
                          (py_sorted item_ltb (map_to_list (w_fields w)))).
Proof.
  intros r0 w.
  assert (H : window_loop 10 2 "INFO" [r0] = Ok [w])
    by (vm_compute; reflexivity).
  assert (Hw : w ∈ [w]) by apply list_elem_of_here.
  assert (Hc : count w = 1%nat) by reflexivity.
  split; [exact (conj H (conj Hw Hc))|].
  exact (single_member_output 10 2 "INFO" [r0] [w] w H Hw Hc).
Defined.

Lemma length_le_sum_count (ws : list window) :
  Forall (fun w => count w = length (window_group w) /\ (0 < count w)%nat) ws ->
  (length ws <= sum_list_with count ws)%nat.
Proof.
  induction 1 as [|w ws [_ Hw] _ IH]; simpl; lia.
Qed.

(** X18.  A run that ends yields one line for each window: never more lines
    than the lines of the file that are kept, and at least one line when a
    line is kept. *)
Theorem output_length lines W thr outs :
  compact_logs (Opened lines None) W thr = Ok outs ->
  (length outs
   <= length (filter (fun line => is_Some (parse_line line)) lines))%nat
  /\ (outs = [] ->
      filter (fun line => is_Some (parse_line line)) lines = []).
Proof.
  intros H. destruct (compact_logs_ok _ _ _ _ H) as (ws & Hws & ->).
  unfold compacted_windows in Hws. simpl in Hws.
  destruct (compact_groups W thr (group_logs (read_lines [] 0 lines)))
    as [ws0|] eqn:Hgroups; [|done].
  apply py_sort_Permutation in Hws.
  destruct (compact_groups_ok _ _ _ _ Hgroups) as [Hjoin Hcount].
  assert (Hlen : sum_list_with count ws0
                 = length (filter (fun line => is_Some (parse_line line)) lines)).
  { rewrite (sum_count_length ws0 Hcount), Hjoin, group_logs_Permutation.
    apply read_lines_length. }
  split.
  - rewrite length_fmap, (Permutation_length Hws), <- Hlen.
    by apply length_le_sum_count.
  - intros Hnil. apply fmap_nil_inv in Hnil. rewrite Hnil in Hws.
    apply Permutation_nil_l in Hws. subst ws0. simpl in Hlen.
    symmetry in Hlen. by apply length_zero_iff_nil in Hlen.
Qed.

Lemma output_length_witness :
  let lines := ["2024-01-01T10:00:00 INFO a=1"; "junk";
                "2024-01-01T10:00:01 INFO a=1";
                "2024-01-01T10:00:02 WARN a=1"] in
  let outs := ["2024-01-01T10:00:00~10:00:01 INFO a=1 (x2)";
               "2024-01-01T10:00:02 WARN a=1"] in
  compact_logs (Opened lines None) 10 2 = Ok outs
  /\ (length outs
      <= length (filter (fun line => is_Some (parse_line line)) lines))%nat
  /\ (outs = [] ->
      filter (fun line => is_Some (parse_line line)) lines = []).
Proof.
  intros lines outs.
  assert (H : compact_logs (Opened lines None) 10 2 = Ok outs)
    by (vm_compute; reflexivity).
  split; [exact H|]. exact (output_length lines 10 2 outs H).
Defined.

(** ** The order of the field tokens and of the fields *)

(** X19.  The order of the field tokens of a line does not matter when their
    keys are distinct: the tokens in any other order give the same
    mapping. *)
Theorem parse_fields_order parts parts' f :
  parts ≡ₚ parts' ->
  NoDup ((Text.split_once "=" <$> parts).*1) ->
  parse_fields parts = Some f ->
  parse_fields parts' = Some f.
Proof.
  intros Hperm Hnd Hf.
  destruct (parse_fields parts') as [f'|] eqn:Hf'.
  - f_equal. rewrite (parse_fields_list_to_map _ _ Hf),
      (parse_fields_list_to_map _ _ Hf').
    apply list_to_map_proper.
    + rewrite fmap_reverse.
      apply (NoDup_Permutation_proper _ _ (reverse_Permutation _)).
      by rewrite <- Hperm.
    + by rewrite !reverse_Permutation, <- Hperm.
  - apply parse_fields_from_none in Hf' as (part & Hin & Hc).
    rewrite <- Hperm in Hin.
    assert (Hnone : parse_fields parts = None)
      by (apply parse_fields_from_none; by exists part).
    congruence.
Qed.

Lemma parse_fields_order_witness :
  let f : gmap string string := <["b" := "2"]> (<["a" := "1"]> ∅) in
  (["a=1"; "b=2"] ≡ₚ ["b=2"; "a=1"]
   /\ NoDup ((Text.split_once "=" <$> ["a=1"; "b=2"]).*1)
   /\ parse_fields ["a=1"; "b=2"] = Some f)
  /\ parse_fields ["b=2"; "a=1"] = Some f.
Proof.
  intros f.
  assert (Hp : ["a=1"; "b=2"] ≡ₚ ["b=2"; "a=1"]) by apply perm_swap.
  assert (Hnd : NoDup ((Text.split_once "=" <$> ["a=1"; "b=2"]).*1)).
  { change (NoDup ["a"; "b"]). apply NoDup_cons.
    split; [by intros [=]%list_elem_of_singleton | apply NoDup_singleton]. }
  assert (Hf : parse_fields ["a=1"; "b=2"] = Some f)
    by (vm_compute; reflexivity).
  split; [exact (conj Hp (conj Hnd Hf))|].
  exact (parse_fields_order _ _ f Hp Hnd Hf).
Defined.

(** X20.  Records that are all within the window of the first one collapse
    into one window: when no member of the group is after the end of the
    window that the first member opens, the group gives that one window,
    with all the members. *)
Theorem group_collapses W thr level r rest window_end :
  Datetime.add_seconds (ts r) W = Ok window_end ->
  Forall (fun m => Datetime.le (ts m) window_end = Ok true) rest ->
  window_loop W thr level (r :: rest)
  = Ok [close_window thr level r (r :: rest)].
Proof.
  intros Hadd Hrest. rewrite window_loop_cons, Hadd.
  pose proof (absorb_complete window_end [r] rest [] Hrest) as Habs.
  rewrite app_nil_r in Habs. rewrite Habs by done.
  by simp window_loop.
Qed.

Lemma group_collapses_witness :
  let r0 := mk_log (Datetime.make 2024 1 1 10 0 0 0 None) "INFO"
                   {[ "a" := "1" ]} 0 in
  let r1 := mk_log (Datetime.make 2024 1 1 10 0 10 0 None) "INFO"
                   {[ "a" := "1" ]} 1 in
  let window_end := Datetime.make 2024 1 1 10 0 10 0 None in
  (Datetime.add_seconds (ts r0) 10 = Ok window_end
   /\ Forall (fun m => Datetime.le (ts m) window_end = Ok true) [r1])
  /\ window_loop 10 2 "INFO" [r0; r1]
     = Ok [close_window 2 "INFO" r0 [r0; r1]].
Proof.
  intros r0 r1 window_end.
  assert (Hadd : Datetime.add_seconds (ts r0) 10 = Ok window_end)
    by (vm_compute; reflexivity).
  assert (Hrest : Forall (fun m => Datetime.le (ts m) window_end = Ok true)
                         [r1])
    by (repeat constructor).
  split; [exact (conj Hadd Hrest)|].
  exact (group_collapses 10 2 "INFO" r0 [r1] window_end Hadd Hrest).
Defined.

Lemma ascii_compare_refl c : Ascii.compare c c = Eq.
Proof. apply N.compare_refl. Qed.

Lemma ascii_compare_lt_trans a b c :
  Ascii.compare a b = Lt -> Ascii.compare b c = Lt -> Ascii.compare a c = Lt.
Proof.
  unfold Ascii.compare. rewrite !N.compare_lt_iff. apply N.lt_trans.
Qed.

Lemma string_compare_lt_trans s1 s2 s3 :
  String.compare s1 s2 = Lt -> String.compare s2 s3 = Lt ->
  String.compare s1 s3 = Lt.
Proof.
  revert s2 s3. induction s1 as [|c1 s1 IH]; intros [|c2 s2] [|c3 s3];
    cbn [String.compare]; try done.
  destruct (Ascii.compare c1 c2) eqn:H12; [| |done];
    destruct (Ascii.compare c2 c3) eqn:H23; try done.
  - apply Ascii.compare_eq_iff in H12 as ->.
    apply Ascii.compare_eq_iff in H23 as ->.
    rewrite ascii_compare_refl. apply IH.
  - apply Ascii.compare_eq_iff in H12 as ->. by rewrite H23.
  - apply Ascii.compare_eq_iff in H23 as <-. by rewrite H12.
  - by rewrite (ascii_compare_lt_trans _ _ _ H12 H23).
Qed.

(** The order of the keys of two fields. *)
Definition key_before (a b : string * string) : Prop := Text.ltb a.1 b.1 = true.

#[global] Instance key_before_trans : Transitive key_before.
Proof.
  unfold key_before, Text.ltb. intros a b c Hab Hbc.
  destruct (String.compare a.1 b.1) eqn:H1; try done.
  destruct (String.compare b.1 c.1) eqn:H2; try done.
  by rewrite (string_compare_lt_trans _ _ _ H1 H2).
Qed.

Lemma item_ltb_true a b : a.1 ≠ b.1 -> item_ltb a b = true -> key_before a b.
Proof.
  unfold item_ltb, key_before. intros Hne.
  by destruct (String.eqb_spec a.1 b.1).
Qed.

Lemma item_ltb_false a b : a.1 ≠ b.1 -> item_ltb a b = false -> key_before b a.
Proof.
  unfold item_ltb, key_before, Text.ltb. intros Hne.
  destruct (String.eqb_spec a.1 b.1); [done|].
  rewrite (String.compare_antisym b.1 a.1).
  destruct (String.compare a.1 b.1) eqn:Hc; try done.
  by apply String.compare_eq_iff in Hc.
Qed.

Lemma insert_sorted_key_before x l :
  Forall (fun y => x.1 ≠ y.1) l ->
  StronglySorted key_before l ->
  StronglySorted key_before (insert_sorted item_ltb x l).
Proof.
  induction l as [|y l IH]; intros Hne Hl; simpl; [by repeat constructor|].
  apply Forall_cons in Hne as [Hxy Hne].
  apply StronglySorted_cons in Hl as [Hy Hl].
  destruct (item_ltb x y) eqn:Hlt.
  - apply item_ltb_true in Hlt; [|done].
    constructor; [by constructor|]. constructor; [done|].
    eapply Forall_impl; [exact Hy|]. intros z Hz. by transitivity y.
  - apply item_ltb_false in Hlt; [|done].
    constructor; [by apply IH|].
    rewrite insert_sorted_Permutation. by constructor.
Qed.

Lemma py_sorted_key_before l :
  NoDup l.*1 -> StronglySorted key_before (py_sorted item_ltb l).
Proof.
  unfold py_sorted.
  assert (H : forall acc,
    NoDup (acc ++ l).*1 -> StronglySorted key_before acc ->
    StronglySorted key_before
      (foldl (fun acc x => insert_sorted item_ltb x acc) acc l)).
  { induction l as [|x l IH]; intros acc Hnd Hacc; simpl; [done|].
    rewrite fmap_app, fmap_cons in Hnd.
    apply IH.
    - rewrite fmap_app, insert_sorted_Permutation, fmap_cons.
      by rewrite <- Permutation_middle in Hnd.
    - apply insert_sorted_key_before; [|done].
      apply NoDup_app in Hnd as (_ & Hdisj & _).
      apply Forall_forall. intros y Hy Heq.
      apply (Hdisj y.1); [by apply list_elem_of_fmap_2|].
      rewrite <- Heq. apply list_elem_of_here. }
  intros Hnd. apply (H []); [done | constructor].
Qed.

(** X21.  The fields in a group key, which are also the fields as a line of
    output shows them, are the fields of the mapping, each one once, in the
    strictly ascending order of their keys. *)
Theorem group_key_fields lvl (f : gmap string string) :
  (make_group_key lvl f).1 = lvl
  /\ StronglySorted key_before (make_group_key lvl f).2
  /\ (forall k v, (k, v) ∈ (make_group_key lvl f).2 <-> f !! k = Some v).
Proof.
  unfold make_group_key. cbn [fst snd]. split; [done|]. split.
  - apply py_sorted_key_before, NoDup_fst_map_to_list.
  - intros k v. rewrite py_sorted_Permutation. apply elem_of_map_to_list.
Qed.

(** ** Sequence indices *)

(** X22.  The indices of the records count the lines that are kept, from 0:
    the record of the [n]-th kept line has index [n], and a line that is
    discarded takes no index. *)
Theorem indices_count_kept_lines lines :
  idx <$> read_lines [] 0 lines
  = seq 0 (length (filter (fun line => is_Some (parse_line line)) lines)).
Proof. by rewrite read_lines_idx, read_lines_length. Qed.
